(** * OpenSY proof-of-work consensus core: a shallow embedding

    The development follows the repository file by file:

    - [Consensus]      src/consensus/params.h  (algorithm selector, limits,
                       RandomX key block height)
    - [Argon2]         src/crypto/argon2_context.{h,cpp}
    - [RandomXPool]    src/crypto/randomx_pool.h (the acquisition loop is
                       modelled from the design text, its body is not part
                       of the sources at hand)
    - [Pow]            the retarget rule of the difficulty engine
    - [TxVerify]       the transaction input check

    Machine integers are [Z] with their ranges written out; [uint256] is a
    [Z] below [2^256]; the UTXO view is a finite map. *)

From Stdlib Require Import ZArith Lia List Bool String.
From stdpp Require Import base option list gmap finite.
From coqutil Require Import Byte Word.LittleEndianList.

Local Open Scope Z_scope.

(** ** Machine integers *)

Definition int_min : Z := - 2 ^ 31.
Definition int_max : Z := 2 ^ 31 - 1.

(** [int] of the C++ sources: 32 bits, two's complement. *)
Definition in_int (z : Z) : Prop := int_min <= z <= int_max.

(** Reduction of a mathematical result to the 32-bit signed range. *)
Definition wrap_int (z : Z) : Z := (z + 2 ^ 31) mod 2 ^ 32 - 2 ^ 31.

Definition uint32_max : Z := 2 ^ 32 - 1.
Definition in_uint32 (z : Z) : Prop := 0 <= z <= uint32_max.

(** [uint256]: an unsigned 256-bit value; [IsNull] is "all bytes zero". *)
Definition uint256 : Type := Z.
Definition in_uint256 (z : uint256) : Prop := 0 <= z < 2 ^ 256.
Definition IsNull (h : uint256) : bool := h =? 0.
Definition uint256_ZERO : uint256 := 0.
Definition uint256_ONE : uint256 := 1.

(** [int] division truncates towards zero ([Z.quot]); a zero divisor, and
    the one overflowing quotient, have no defined result. *)
Definition int_div (a b : Z) : option Z :=
  if b =? 0 then None
  else if (a =? int_min) && (b =? -1) then None
  else Some (a ÷ b).

(** The same for [int64_t]. *)
Definition int64_min : Z := - 2 ^ 63.

Definition int64_div (a b : Z) : option Z :=
  if b =? 0 then None
  else if (a =? int64_min) && (b =? -1) then None
  else Some (a ÷ b).

(** The 32 bytes of a [uint256] as they lie in memory ([begin()]), and the
    value read back from 32 bytes. *)
Definition uint256_bytes (h : uint256) : list byte := le_split 32 h.
Definition uint256_of_bytes (bs : list byte) : uint256 := le_combine bs.

(** The 4 bytes of a [uint32_t] object on a little-endian host. *)
Definition uint32_bytes (x : Z) : list byte := le_split 4 x.

(** Bytes can be compared and there are 256 of them. *)
#[global] Instance byte_eq_dec : EqDecision byte.
Proof.
  intros a b. destruct (decide (byte.unsigned a = byte.unsigned b)) as [H|H].
  - left. apply byte.unsigned_inj, H.
  - right. intros ->. apply H. reflexivity.
Defined.

#[global] Instance byte_finite : Finite byte.
Proof.
  refine (enc_finite (fun b => Z.to_nat (byte.unsigned b))
                     (fun n => byte.of_Z (Z.of_nat n)) 256 _ _ _).
  - intros b. pose proof (byte.unsigned_range b).
    rewrite Z2Nat.id by lia. apply byte.of_Z_unsigned.
  - intros b. pose proof (byte.unsigned_range b).
    change (2 ^ 8) with 256 in *. lia.
  - intros i Hi. rewrite byte.unsigned_of_Z. unfold byte.wrap.
    rewrite Z.mod_small by (change (2 ^ 8) with 256; lia). lia.
Defined.

(** ** src/consensus/params.h *)

Module Consensus.

Inductive PowAlgorithm : Type :=
| SHA256D
| RANDOMX
| ARGON2ID.

#[global] Instance PowAlgorithm_eq_dec : EqDecision PowAlgorithm.
Proof. solve_decision. Defined.

(** The proof-of-work part of [struct Params]. *)
Record Params : Type := mkParams {
  powLimit : uint256;
  fPowAllowMinDifficultyBlocks : bool;
  fPowNoRetargeting : bool;
  nPowTargetSpacing : Z;
  nPowTargetTimespan : Z;
  nRandomXForkHeight : Z;
  nRandomXKeyBlockInterval : Z;
  powLimitRandomX : uint256;
  nArgon2EmergencyHeight : Z;
  nArgon2MemoryCost : Z;
  nArgon2TimeCost : Z;
  nArgon2Parallelism : Z;
  powLimitArgon2 : uint256
}.

(** A default-constructed [Params] with the in-class initialisers of the
    header; the fields without initialiser are zero / null here. *)
Definition default_Params : Params :=
  {| powLimit := 0;
     fPowAllowMinDifficultyBlocks := false;
     fPowNoRetargeting := false;
     nPowTargetSpacing := 0;
     nPowTargetTimespan := 0;
     nRandomXForkHeight := 57500;
     nRandomXKeyBlockInterval := 32;
     powLimitRandomX := 0;
     nArgon2EmergencyHeight := -1;
     nArgon2MemoryCost := 2 ^ 21;
     nArgon2TimeCost := 1;
     nArgon2Parallelism := 1;
     powLimitArgon2 := 0 |}.

Section WithParams.
Variable p : Params.

Definition IsArgon2EmergencyActive (height : Z) : bool :=
  (nArgon2EmergencyHeight p >=? 0) && (height >=? nArgon2EmergencyHeight p).

Definition IsRandomXActive (height : Z) : bool :=
  (height >=? nRandomXForkHeight p) && negb (IsArgon2EmergencyActive height).

Definition GetPowAlgorithm (height : Z) : PowAlgorithm :=
  if IsArgon2EmergencyActive height then ARGON2ID
  else if IsRandomXActive height then RANDOMX
  else SHA256D.

Definition GetActivePowLimit (height : Z) : uint256 :=
  match GetPowAlgorithm height with
  | ARGON2ID =>
      if IsNull (powLimitArgon2 p) then powLimitRandomX p else powLimitArgon2 p
  | RANDOMX =>
      if IsNull (powLimitRandomX p) then powLimit p else powLimitRandomX p
  | SHA256D => powLimit p
  end.

Definition GetRandomXPowLimit (height : Z) : uint256 :=
  GetActivePowLimit height.

Definition GetRandomXKeyBlockHeight (height : Z) : option Z :=
  q ← int_div height (nRandomXKeyBlockInterval p);
  let keyHeight :=
    wrap_int (wrap_int (q * nRandomXKeyBlockInterval p)
              - nRandomXKeyBlockInterval p) in
  Some (if keyHeight >=? 0 then keyHeight else 0).

(** [int64_t] division: no result for a zero spacing, nor for the one
    quotient that does not fit, [INT64_MIN / -1]. *)
Definition DifficultyAdjustmentInterval : option Z :=
  int64_div (nPowTargetTimespan p) (nPowTargetSpacing p).

End WithParams.

(** The selector as the design text words it. *)
Definition spec_selector (emergency_height mhp_fork_height height : Z)
  : PowAlgorithm :=
  if (emergency_height >=? 0) && (height >=? emergency_height) then ARGON2ID
  else if height >=? mhp_fork_height then RANDOMX
  else SHA256D.

(** The key height as the design text words it. *)
Definition spec_key_height (interval height : Z) : Z :=
  Z.max 0 ((height / interval) * interval - interval).

(** *** Deployments *)

Definition int16_min : Z := - 2 ^ 15.
Definition in_int16 (z : Z) : Prop := - 2 ^ 15 <= z < 2 ^ 15.
Definition in_uint16 (z : Z) : Prop := 0 <= z < 2 ^ 16.

(** [enum BuriedDeployment : int16_t]: the first enumerator is the least
    [int16_t], the others follow it. *)
Inductive BuriedDeployment : Type :=
| DEPLOYMENT_HEIGHTINCB
| DEPLOYMENT_CLTV
| DEPLOYMENT_DERSIG
| DEPLOYMENT_CSV
| DEPLOYMENT_SEGWIT.

Definition BuriedDeployment_value (dep : BuriedDeployment) : Z :=
  match dep with
  | DEPLOYMENT_HEIGHTINCB => int16_min
  | DEPLOYMENT_CLTV => int16_min + 1
  | DEPLOYMENT_DERSIG => int16_min + 2
  | DEPLOYMENT_CSV => int16_min + 3
  | DEPLOYMENT_SEGWIT => int16_min + 4
  end.

(** [enum DeploymentPos : uint16_t] *)
Inductive DeploymentPos : Type :=
| DEPLOYMENT_TESTDUMMY
| DEPLOYMENT_TAPROOT
| MAX_VERSION_BITS_DEPLOYMENTS.

Definition DeploymentPos_value (dep : DeploymentPos) : Z :=
  match dep with
  | DEPLOYMENT_TESTDUMMY => 0
  | DEPLOYMENT_TAPROOT => 1
  | MAX_VERSION_BITS_DEPLOYMENTS => 2
  end.

(** An object of an enumeration type with a fixed underlying type holds
    any value of that type; the two [ValidDeployment] overloads and
    [DeploymentHeight] are given that value. *)
Definition ValidDeployment_buried (dep : Z) : bool :=
  dep <=? BuriedDeployment_value DEPLOYMENT_SEGWIT.

Definition ValidDeployment_pos (dep : Z) : bool :=
  dep <? DeploymentPos_value MAX_VERSION_BITS_DEPLOYMENTS.

(** The buried-deployment heights of [struct Params]. *)
Record BuriedHeights : Type := mkBuriedHeights {
  BIP34Height : Z;
  BIP65Height : Z;
  BIP66Height : Z;
  CSVHeight : Z;
  SegwitHeight : Z
}.

(** The [switch] has no default: any other value runs to the final
    [return std::numeric_limits<int>::max()]. *)
Definition DeploymentHeight (heights : BuriedHeights) (dep : Z) : Z :=
  if dep =? BuriedDeployment_value DEPLOYMENT_HEIGHTINCB then BIP34Height heights
  else if dep =? BuriedDeployment_value DEPLOYMENT_CLTV then BIP65Height heights
  else if dep =? BuriedDeployment_value DEPLOYMENT_DERSIG then BIP66Height heights
  else if dep =? BuriedDeployment_value DEPLOYMENT_CSV then CSVHeight heights
  else if dep =? BuriedDeployment_value DEPLOYMENT_SEGWIT then SegwitHeight heights
  else int_max.

End Consensus.

(** ** SHA-256 (the [CSHA256] hasher used by the development fallback)

    Modelled from the spec: [crypto/sha256.h] is not among the sources; the
    design text names the stand-in as SHA-256, which is written out here
    after FIPS 180-4 so that the fallback path can be run. The general
    results on [Argon2] below take the hasher as a parameter. *)

Module SHA256.

Definition add32 (x y : Z) : Z := (x + y) mod 2 ^ 32.
Definition rotr (n x : Z) : Z :=
  Z.lor (Z.shiftr x n) (Z.shiftl x (32 - n) mod 2 ^ 32).
Definition shr (n x : Z) : Z := Z.shiftr x n.
Definition Ch (x y z : Z) : Z :=
  Z.lxor (Z.land x y) (Z.land (Z.lxor x (2 ^ 32 - 1)) z).
Definition Maj (x y z : Z) : Z :=
  Z.lxor (Z.lxor (Z.land x y) (Z.land x z)) (Z.land y z).
Definition Sigma0 (x : Z) : Z :=
  Z.lxor (Z.lxor (rotr 2 x) (rotr 13 x)) (rotr 22 x).
Definition Sigma1 (x : Z) : Z :=
  Z.lxor (Z.lxor (rotr 6 x) (rotr 11 x)) (rotr 25 x).
Definition sigma0 (x : Z) : Z :=
  Z.lxor (Z.lxor (rotr 7 x) (rotr 18 x)) (shr 3 x).
Definition sigma1 (x : Z) : Z :=
  Z.lxor (Z.lxor (rotr 17 x) (rotr 19 x)) (shr 10 x).

(** The round constants are the first 32 bits of the fractional parts of
    the cube roots of the first 64 primes, the initial state those of the
    square roots of the first 8. *)
Definition is_prime (n : Z) : bool :=
  (1 <? n) && forallb (fun d => negb (n mod d =? 0)) (seqZ 2 (n - 2)).

Definition primes_below (n : Z) : list Z :=
  List.filter is_prime (seqZ 2 (n - 2)).

(** The largest [r] below [2 ^ bits] with [r ^ 3 <= n]. *)
Fixpoint cube_root (bits : nat) (n r : Z) : Z :=
  match bits with
  | O => r
  | S b =>
      let r' := r + 2 ^ Z.of_nat b in
      cube_root b n (if r' * r' * r' <=? n then r' else r)
  end.

Definition cbrt_fraction (p : Z) : Z :=
  cube_root 36 (p * 2 ^ 96) 0 mod 2 ^ 32.

Definition sqrt_fraction (p : Z) : Z :=
  Z.sqrt (p * 2 ^ 64) mod 2 ^ 32.

Definition K : list Z :=
  Eval vm_compute in map cbrt_fraction (primes_below 312).

Record state : Type := mkState {
  sa : Z; sb : Z; sc : Z; sd : Z; se : Z; sf : Z; sg : Z; sh : Z
}.

Definition state_of_list (l : list Z) : state :=
  mkState (nth 0 l 0) (nth 1 l 0) (nth 2 l 0) (nth 3 l 0)
          (nth 4 l 0) (nth 5 l 0) (nth 6 l 0) (nth 7 l 0).

Definition H0 : state :=
  Eval vm_compute in state_of_list (map sqrt_fraction (primes_below 20)).

Definition be64 (z : Z) : list Z :=
  map (fun i => Z.shiftr z (8 * i) mod 256) [7; 6; 5; 4; 3; 2; 1; 0].

Definition pad (msg : list Z) : list Z :=
  let len := Z.of_nat (length msg) in
  msg ++ [0x80] ++ repeat 0 (Z.to_nat ((55 - len) mod 64)) ++ be64 (8 * len).

Fixpoint words_of_bytes (l : list Z) : list Z :=
  match l with
  | a :: b :: c :: d :: t =>
      (Z.shiftl a 24 + Z.shiftl b 16 + Z.shiftl c 8 + d) :: words_of_bytes t
  | _ => []
  end.

Fixpoint blocks (fuel : nat) (ws : list Z) : list (list Z) :=
  match fuel, ws with
  | S f, _ :: _ => firstn 16 ws :: blocks f (skipn 16 ws)
  | _, _ => []
  end.

(** The message schedule, newest word first. *)
Fixpoint schedule (n : nat) (w : list Z) : list Z :=
  match n with
  | O => w
  | S n' =>
      let wt := add32 (add32 (sigma1 (nth 1 w 0)) (nth 6 w 0))
                      (add32 (sigma0 (nth 14 w 0)) (nth 15 w 0)) in
      schedule n' (wt :: w)
  end.

Definition round (s : state) (kw : Z * Z) : state :=
  let t1 :=
    add32 (add32 (add32 (sh s) (Sigma1 (se s))) (Ch (se s) (sf s) (sg s)))
          (add32 (fst kw) (snd kw)) in
  let t2 := add32 (Sigma0 (sa s)) (Maj (sa s) (sb s) (sc s)) in
  mkState (add32 t1 t2) (sa s) (sb s) (sc s)
          (add32 (sd s) t1) (se s) (sf s) (sg s).

Definition compress (h : state) (block : list Z) : state :=
  let w := rev (schedule 48 (rev block)) in
  let s := fold_left round (combine K w) h in
  mkState (add32 (sa h) (sa s)) (add32 (sb h) (sb s))
          (add32 (sc h) (sc s)) (add32 (sd h) (sd s))
          (add32 (se h) (se s)) (add32 (sf h) (sf s))
          (add32 (sg h) (sg s)) (add32 (sh h) (sh s)).

Definition be32 (w : Z) : list byte :=
  [ byte.of_Z (Z.shiftr w 24); byte.of_Z (Z.shiftr w 16);
    byte.of_Z (Z.shiftr w 8); byte.of_Z w ].

Definition digest (s : state) : list byte :=
  be32 (sa s) ++ be32 (sb s) ++ be32 (sc s) ++ be32 (sd s) ++
  be32 (se s) ++ be32 (sf s) ++ be32 (sg s) ++ be32 (sh s).

(** Modelled from the spec: [CSHA256] of crypto/sha256.h, which is not
    among the sources; [CSHA256().Write(msg).Finalize(out)] is SHA-256. *)
Definition hash (msg : list byte) : list byte :=
  let ws := words_of_bytes (pad (map byte.unsigned msg)) in
  digest (fold_left compress (blocks (length ws) ws) H0).

End SHA256.

(** ** The block header

    Modelled from the spec: primitives/block.h is not among the sources.
    The header is the 80-byte record of the design text, laid out as the
    test [block_header_field_order] spells it: version in bytes 0-3,
    previous hash in 4-35, merkle root in 36-67, time in 68-71, bits in
    72-75, nonce in 76-79, each little-endian. *)

Module Block.

Record CBlockHeader : Type := mkHeader {
  nVersion : Z;
  hashPrevBlock : uint256;
  hashMerkleRoot : uint256;
  nTime : Z;
  nBits : Z;
  nNonce : Z
}.

(** [nVersion] is an [int32_t], the three last fields are [uint32_t]. *)
Definition header_in_range (h : CBlockHeader) : Prop :=
  in_int (nVersion h)
  /\ in_uint256 (hashPrevBlock h) /\ in_uint256 (hashMerkleRoot h)
  /\ in_uint32 (nTime h) /\ in_uint32 (nBits h) /\ in_uint32 (nNonce h).

(** Modelled from the spec: the serialisation [ss << header] of
    primitives/block.h, which is not among the sources. *)
Definition Serialize (h : CBlockHeader) : list byte :=
  le_split 4 (nVersion h)
  ++ uint256_bytes (hashPrevBlock h)
  ++ uint256_bytes (hashMerkleRoot h)
  ++ uint32_bytes (nTime h)
  ++ uint32_bytes (nBits h)
  ++ uint32_bytes (nNonce h).

End Block.

(** ** src/crypto/argon2_context.h, src/crypto/argon2_context.cpp *)

Module Argon2.

Inductive exception : Type :=
| invalid_argument (what : string)
| runtime_error (what : string).

(** A call either returns or throws. *)
Inductive result (A : Type) : Type :=
| Ok (a : A)
| Throw (e : exception).
Arguments Ok {A} a.
Arguments Throw {A} e.

#[global] Instance result_bind : MBind result :=
  fun A B (k : A -> result B) (r : result A) =>
    match r with
    | Ok a => k a
    | Throw e => Throw e
    end.

Definition check (failed : bool) (e : exception) : result unit :=
  if failed then Throw e else Ok tt.

Definition HASH_LENGTH : Z := 32.
Definition ARGON2_MAX_INPUT_SIZE : Z := 4 * 1024 * 1024.
Definition crypto_pwhash_ALG_ARGON2ID13 : Z := 2.

(** [crypto_pwhash_SALTBYTES] of sodium.h (libsodium is no part of the
    sources): [crypto_pwhash] is handed a pointer to the salt and no
    length, and reads this many bytes there. *)
Definition crypto_pwhash_SALTBYTES : nat := 16.

(** The bytes [crypto_pwhash] reads at [salt.begin()]. *)
Definition salt_read (salt : uint256) : list byte :=
  take crypto_pwhash_SALTBYTES (uint256_bytes salt).

(** What the translation unit is built against and runs on: whether
    [HAVE_LIBSODIUM] is defined, the two libsodium entry points it calls,
    and the SHA-256 hasher of the fallback. [crypto_pwhash] gets the
    output length, the password, the bytes it reads at the salt pointer,
    [opslimit], [memlimit] and the algorithm, and yields the output bytes
    when it returns 0. *)
Record Platform : Type := mkPlatform {
  USE_LIBSODIUM : bool;
  sodium_init : Z;
  crypto_pwhash : Z -> list byte -> list byte -> Z -> Z -> Z -> option (list byte);
  CSHA256 : list byte -> list byte
}.

Record Argon2Context : Type := mkContext {
  m_initialized : bool;
  m_memory_cost : Z;
  m_time_cost : Z;
  m_parallelism : Z
}.

Definition GetMemoryCost (ctx : Argon2Context) : Z := m_memory_cost ctx.
Definition GetTimeCost (ctx : Argon2Context) : Z := m_time_cost ctx.
Definition GetParallelism (ctx : Argon2Context) : Z := m_parallelism ctx.
Definition IsInitialized (ctx : Argon2Context) : bool := m_initialized ctx.

(** [size_t] of the 64-bit targets. *)
Definition size_t_mul (a b : Z) : Z := (a * b) mod 2 ^ 64.

Section WithPlatform.
Variable pf : Platform.

(** The constructor: the object exists only if no check throws. *)
Definition new_Argon2Context (memory_cost time_cost parallelism : Z)
  : result Argon2Context :=
  check (memory_cost <? 8)
    (invalid_argument "Argon2 memory_cost must be at least 8 KiB");;
  check (time_cost <? 1)
    (invalid_argument "Argon2 time_cost must be at least 1");;
  check (parallelism <? 1)
    (invalid_argument "Argon2 parallelism must be at least 1");;
  check (USE_LIBSODIUM pf && (sodium_init pf <? 0))
    (runtime_error "Failed to initialize libsodium");;
  Ok {| m_initialized := true;
        m_memory_cost := memory_cost;
        m_time_cost := time_cost;
        m_parallelism := parallelism |}.

(** The bytes written into the fallback hasher, in order. *)
Definition fallback_preimage (ctx : Argon2Context) (data : list byte)
                             (salt : uint256) : list byte :=
  data ++ uint256_bytes salt
       ++ uint32_bytes (m_memory_cost ctx)
       ++ uint32_bytes (m_time_cost ctx).

Definition CalculateHash (ctx : Argon2Context) (data : list byte)
                         (salt : uint256) : result uint256 :=
  let len := Z.of_nat (length data) in
  check (negb (m_initialized ctx))
    (runtime_error "Argon2 context not initialized");;
  check (len >? ARGON2_MAX_INPUT_SIZE)
    (runtime_error "Argon2 input exceeds maximum size");;
  if USE_LIBSODIUM pf then
    match crypto_pwhash pf HASH_LENGTH data (salt_read salt)
            (m_time_cost ctx) (size_t_mul (m_memory_cost ctx) 1024)
            crypto_pwhash_ALG_ARGON2ID13 with
    | Some out => Ok (uint256_of_bytes out)
    | None => Throw (runtime_error "Argon2id hash calculation failed")
    end
  else
    Ok (uint256_of_bytes (CSHA256 pf (fallback_preimage ctx data salt))).







End WithPlatform.

(** A build without libsodium, hashing with SHA-256. *)
Definition fallback_build : Platform :=
  {| USE_LIBSODIUM := false;
     sodium_init := 0;
     crypto_pwhash := fun _ _ _ _ _ _ => None;
     CSHA256 := SHA256.hash |}.

(** *** Block hashing and the global context *)

(** The header is serialised and hashed with its [hashPrevBlock] as
    salt. *)
Definition CalculateBlockHash (pf : Platform) (ctx : Argon2Context)
                              (header : Block.CBlockHeader) : result uint256 :=
  CalculateHash pf ctx (Block.Serialize header) (Block.hashPrevBlock header).

(** [g_argon2_context]: null, or owning a context. *)
Definition GlobalContext : Type := option Argon2Context.

(** [InitArgon2Context]: constructs only when the pointer is null; an
    exception of the constructor leaves it null. *)
Definition InitArgon2Context (pf : Platform)
           (memory_cost time_cost parallelism : Z) (g : GlobalContext)
  : result unit * GlobalContext :=
  match g with
  | Some _ => (Ok tt, g)
  | None =>
      match new_Argon2Context pf memory_cost time_cost parallelism with
      | Ok ctx => (Ok tt, Some ctx)
      | Throw e => (Throw e, None)
      end
  end.

(** [CalculateArgon2Hash]: initialises the global context from the
    consensus parameters if it is null, then hashes through it. The outer
    [None] stands for dereferencing a null [g_argon2_context]. *)
Definition CalculateArgon2Hash (pf : Platform) (header : Block.CBlockHeader)
           (params : Consensus.Params) (g : GlobalContext)
  : option (result uint256 * GlobalContext) :=
  let '(initialised, g') :=
    match g with
    | None =>
        InitArgon2Context pf (Consensus.nArgon2MemoryCost params)
                          (Consensus.nArgon2TimeCost params)
                          (Consensus.nArgon2Parallelism params) g
    | Some _ => (Ok tt, g)
    end in
  match initialised with
  | Throw e => Some (Throw e, g')
  | Ok _ =>
      match g' with
      | Some ctx => Some (CalculateBlockHash pf ctx header, g')
      | None => None
      end
  end.

End Argon2.

(** ** src/crypto/randomx_pool.h *)

Module RandomXPool.

Inductive AcquisitionPriority : Type :=
| NORMAL
| HIGH
| CONSENSUS_CRITICAL.

#[global] Instance AcquisitionPriority_eq_dec : EqDecision AcquisitionPriority.
Proof. solve_decision. Defined.

Definition MAX_CONTEXTS : nat := 8.

(** [std::chrono::seconds] constants of the class. *)
Definition ACQUIRE_TIMEOUT : Z := 30.
Definition HIGH_PRIORITY_TIMEOUT : Z := 120.

(** A pool entry; the context it owns is identified by the key it is
    initialised for. *)
Record PoolEntry : Type := mkEntry {
  key_hash : uint256;
  last_used : Z;
  in_use : bool
}.

Record Pool : Type := mkPool {
  m_pool : list PoolEntry;
  m_max_contexts : nat;
  m_waiting_consensus_critical : nat;
  m_waiting_high : nat;
  m_waiting_normal : nat;
  m_total_acquisitions : nat;
  m_total_waits : nat;
  m_total_timeouts : nat;
  m_key_reinitializations : nat;
  m_consensus_critical_acquisitions : nat;
  m_high_priority_acquisitions : nat;
  m_priority_preemptions : nat
}.

(** A freshly constructed pool (the in-class initialisers). *)
Definition new_Pool : Pool :=
  mkPool [] MAX_CONTEXTS 0 0 0 0 0 0 0 0 0 0.

(** The guard remembers the slot it holds; a moved-from guard holds
    [SIZE_MAX], here [None]. *)
Record ContextGuard : Type := mkGuard { m_index : option nat }.

Definition set_m_pool (es : list PoolEntry) (p : Pool) : Pool :=
  mkPool es (m_max_contexts p) (m_waiting_consensus_critical p)
         (m_waiting_high p) (m_waiting_normal p) (m_total_acquisitions p)
         (m_total_waits p) (m_total_timeouts p) (m_key_reinitializations p)
         (m_consensus_critical_acquisitions p)
         (m_high_priority_acquisitions p) (m_priority_preemptions p).

Definition add_waiting (prio : AcquisitionPriority) (f : nat -> nat)
                       (p : Pool) : Pool :=
  mkPool (m_pool p) (m_max_contexts p)
         (if decide (prio = CONSENSUS_CRITICAL)
          then f (m_waiting_consensus_critical p)
          else m_waiting_consensus_critical p)
         (if decide (prio = HIGH) then f (m_waiting_high p)
          else m_waiting_high p)
         (if decide (prio = NORMAL) then f (m_waiting_normal p)
          else m_waiting_normal p)
         (m_total_acquisitions p) (m_total_waits p) (m_total_timeouts p)
         (m_key_reinitializations p) (m_consensus_critical_acquisitions p)
         (m_high_priority_acquisitions p) (m_priority_preemptions p).

(** Counter updates; each touches the statistics only. *)
Definition count_acquisition (prio : AcquisitionPriority) (p : Pool) : Pool :=
  mkPool (m_pool p) (m_max_contexts p) (m_waiting_consensus_critical p)
         (m_waiting_high p) (m_waiting_normal p)
         (S (m_total_acquisitions p)) (m_total_waits p) (m_total_timeouts p)
         (m_key_reinitializations p)
         (if decide (prio = CONSENSUS_CRITICAL)
          then S (m_consensus_critical_acquisitions p)
          else m_consensus_critical_acquisitions p)
         (if decide (prio = HIGH) then S (m_high_priority_acquisitions p)
          else m_high_priority_acquisitions p)
         (m_priority_preemptions p).

Definition count_wait (p : Pool) : Pool :=
  mkPool (m_pool p) (m_max_contexts p) (m_waiting_consensus_critical p)
         (m_waiting_high p) (m_waiting_normal p) (m_total_acquisitions p)
         (S (m_total_waits p)) (m_total_timeouts p)
         (m_key_reinitializations p) (m_consensus_critical_acquisitions p)
         (m_high_priority_acquisitions p) (m_priority_preemptions p).

Definition count_timeout (p : Pool) : Pool :=
  mkPool (m_pool p) (m_max_contexts p) (m_waiting_consensus_critical p)
         (m_waiting_high p) (m_waiting_normal p) (m_total_acquisitions p)
         (m_total_waits p) (S (m_total_timeouts p))
         (m_key_reinitializations p) (m_consensus_critical_acquisitions p)
         (m_high_priority_acquisitions p) (m_priority_preemptions p).

Definition count_reinitialization (p : Pool) : Pool :=
  mkPool (m_pool p) (m_max_contexts p) (m_waiting_consensus_critical p)
         (m_waiting_high p) (m_waiting_normal p) (m_total_acquisitions p)
         (m_total_waits p) (m_total_timeouts p)
         (S (m_key_reinitializations p))
         (m_consensus_critical_acquisitions p)
         (m_high_priority_acquisitions p) (m_priority_preemptions p).

Definition count_preemption (p : Pool) : Pool :=
  mkPool (m_pool p) (m_max_contexts p) (m_waiting_consensus_critical p)
         (m_waiting_high p) (m_waiting_normal p) (m_total_acquisitions p)
         (m_total_waits p) (m_total_timeouts p) (m_key_reinitializations p)
         (m_consensus_critical_acquisitions p)
         (m_high_priority_acquisitions p) (S (m_priority_preemptions p)).

Record PoolStats : Type := mkStats {
  total_contexts : nat;
  active_contexts : nat;
  available_contexts : nat;
  total_acquisitions : nat;
  total_waits : nat;
  total_timeouts : nat;
  key_reinitializations : nat;
  consensus_critical_acquisitions : nat;
  high_priority_acquisitions : nat;
  priority_preemptions : nat
}.

(** *** The member functions

    Their bodies live in randomx_pool.cpp, which is not among the sources;
    each follows the acquisition algorithm of the design text (steps 1,
    2a-2e and 3) and its declaration in the header. *)

(** Modelled from the spec: the body of [GetTimeoutForPriority] is missing;
    [timeout(NORMAL) = 30 s], [timeout(HIGH) = 120 s], consensus-critical
    waits are unbounded ([None]). *)
Definition GetTimeoutForPriority (prio : AcquisitionPriority) : option Z :=
  match prio with
  | NORMAL => Some ACQUIRE_TIMEOUT
  | HIGH => Some HIGH_PRIORITY_TIMEOUT
  | CONSENSUS_CRITICAL => None
  end.

(** Modelled from the spec: the body of [ShouldYieldToHigherPriority] is
    missing; step 2a: [P <> CONSENSUS_CRITICAL] and a consensus-critical
    waiter exists. *)
Definition ShouldYieldToHigherPriority (p : Pool)
           (my_priority : AcquisitionPriority) : bool :=
  bool_decide (my_priority <> CONSENSUS_CRITICAL)
  && (0 <? m_waiting_consensus_critical p)%nat.

Definition is_free (e : PoolEntry) : bool := negb (in_use e).

(** Modelled from the spec: part of the missing [FindOrCreateContext];
    step 2b: the first free entry whose key equals [key]. *)
Fixpoint find_free_with_key (key : uint256) (es : list PoolEntry) (i : nat)
  : option nat :=
  match es with
  | [] => None
  | e :: rest =>
      if is_free e && (key_hash e =? key) then Some i
      else find_free_with_key key rest (S i)
  end.

(** Modelled from the spec: part of the missing [FindOrCreateContext];
    step 2c: the least recently used free entry (the first one on ties). *)
Fixpoint find_lru_free (es : list PoolEntry) (i : nat)
                       (best : option (nat * Z)) : option nat :=
  match es with
  | [] => fst <$> best
  | e :: rest =>
      let best' :=
        if is_free e then
          match best with
          | Some (_, t) => if last_used e <? t then Some (i, last_used e) else best
          | None => Some (i, last_used e)
          end
        else best in
      find_lru_free rest (S i) best'
  end.

Definition take_entry (e : PoolEntry) : PoolEntry :=
  mkEntry (key_hash e) (last_used e) true.

Definition rekey_entry (key : uint256) (e : PoolEntry) : PoolEntry :=
  mkEntry key (last_used e) true.

(** Modelled from the spec: the missing [FindOrCreateContext] on the
    entries; steps 2b and 2c: the slot index, the new entries and whether a
    context was reinitialised for a new key; [None] ([SIZE_MAX]) when every
    slot is busy. *)
Definition find_or_create (key : uint256) (max_contexts : nat)
                          (es : list PoolEntry)
  : option (nat * list PoolEntry * bool) :=
  match find_free_with_key key es 0 with
  | Some i => Some (i, alter take_entry i es, false)
  | None =>
      if (length es <? max_contexts)%nat then
        Some (length es, es ++ [mkEntry key 0 true], false)
      else
        match find_lru_free es 0 None with
        | Some i => Some (i, alter (rekey_entry key) i es, true)
        | None => None
        end
  end.

(** Modelled from the spec: the body of [FindOrCreateContext] is missing;
    a reinitialisation for a new key is counted. *)
Definition FindOrCreateContext (key : uint256) (p : Pool)
  : option (nat * Pool) :=
  match find_or_create key (m_max_contexts p) (m_pool p) with
  | Some (i, es, reinit) =>
      let p' := set_m_pool es p in
      Some (i, if reinit then count_reinitialization p' else p')
  | None => None
  end.

Definition release_entry (now : Z) (e : PoolEntry) : PoolEntry :=
  mkEntry (key_hash e) now false.

(** Modelled from the spec: the body of [Return] is missing; the release
    path of a guard: the slot goes back, [last_used] is updated; a
    moved-from guard releases nothing. *)
Definition Return (index : option nat) (now : Z) (p : Pool) : Pool :=
  match index with
  | Some i => set_m_pool (alter (release_entry now) i (m_pool p)) p
  | None => p
  end.

Definition count_in_use (es : list PoolEntry) : nat :=
  length (filter (fun e => in_use e = true) es).

(** Modelled from the spec: the body of [GetStats] is missing; the
    counters of the design text. *)
Definition GetStats (p : Pool) : PoolStats :=
  {| total_contexts := length (m_pool p);
     active_contexts := count_in_use (m_pool p);
     available_contexts := length (m_pool p) - count_in_use (m_pool p);
     total_acquisitions := m_total_acquisitions p;
     total_waits := m_total_waits p;
     total_timeouts := m_total_timeouts p;
     key_reinitializations := m_key_reinitializations p;
     consensus_critical_acquisitions := m_consensus_critical_acquisitions p;
     high_priority_acquisitions := m_high_priority_acquisitions p;
     priority_preemptions := m_priority_preemptions p |}.

(** *** The other threads

    While a caller waits on a condition variable the mutex is released
    and other threads operate on the pool. One wait is described by what
    they did in the meantime and by the moment (seconds after the wait
    began) at which a notification reached the caller, if any did. *)

Inductive PoolOp : Type :=
| OtherReturn (index : nat) (now : Z)
| OtherTake (key : uint256)
| OtherArrive (prio : AcquisitionPriority)
| OtherLeave (prio : AcquisitionPriority).

Record WaitEvent : Type := mkEvent {
  interference : list PoolOp;
  notified_after : option Z
}.

Definition apply_op (op : PoolOp) (p : Pool) : Pool :=
  match op with
  | OtherReturn i now => Return (Some i) now p
  | OtherTake key =>
      match FindOrCreateContext key p with
      | Some (_, p') => p'
      | None => p
      end
  | OtherArrive prio => add_waiting prio S p
  | OtherLeave prio => add_waiting prio Nat.pred p
  end.

Definition interfere (ev : WaitEvent) (p : Pool) : Pool :=
  fold_left (fun q op => apply_op op q) (interference ev) p.

(** [std::cv_status] *)
Inductive cv_status : Type := no_timeout | timeout.

(** [wait] / [wait_for] of the condition variables: an unbounded wait
    comes back only when notified; a bounded one comes back with [timeout]
    once the bound has elapsed without notification. No event left means no
    thread ever notifies. *)
Definition wait (bound : option Z) (ev : option WaitEvent)
  : option cv_status :=
  match bound, ev ≫= notified_after with
  | None, None => None
  | None, Some _ => Some no_timeout
  | Some t, None => Some timeout
  | Some t, Some d => if d <? t then Some no_timeout else Some timeout
  end.



(** An acquisition completes, with a guard or without; or the
    construction of the context it needs fails and the error is
    propagated; or it stays blocked on an unbounded wait. *)
Inductive Outcome : Type :=
| Completed (g : option ContextGuard)
| Failed
| Blocked.

Record Run : Type := mkRun {
  outcome : Outcome;
  pool_after : Pool
}.

(** Handing out a slot constructs a context (a fresh one, or the evicted
    one re-keyed) unless a free entry already holds the key. *)
Definition needs_construction (key : uint256) (p : Pool) : bool :=
  bool_decide (find_free_with_key key (m_pool p) 0 = None).

(** A NORMAL waiter that yields is counted in [priority_preemptions]. *)
Definition yielded (prio : AcquisitionPriority) (p : Pool) : Pool :=
  if decide (prio = NORMAL) then count_preemption p else p.

(** One round of the loop, up to its wait. *)
Inductive Step : Type :=
| Take (index : nat) (p : Pool)
| Propagate
| WaitOn (p : Pool).

(** Modelled from the spec: the body of [Acquire] is missing; steps 2a-2d
    of the acquisition algorithm up to the wait: yield to a
    consensus-critical waiter (2a), take or materialise a slot (2b, 2c),
    else wait (2d). [constructs] tells whether the engine manages to
    construct or re-key a context for this acquisition; when it does not,
    the error is propagated and the slot is not consumed (failure
    model; the design text says nothing about the counters then, they are
    left as they are). *)
Definition acquire_step (key : uint256) (prio : AcquisitionPriority)
                        (constructs : bool) (p : Pool) : Step :=
  if ShouldYieldToHigherPriority p prio then WaitOn (yielded prio p)
  else
    match FindOrCreateContext key p with
    | Some (i, p') =>
        if needs_construction key p && negb constructs then Propagate
        else Take i p'
    | None => WaitOn (count_wait p)
    end.

(** Step 2e: leaving without a guard. *)
Definition leave_on_timeout (prio : AcquisitionPriority) (p : Pool) : Run :=
  mkRun (Completed None) (count_timeout (add_waiting prio Nat.pred p)).

(** Modelled from the spec: the body of [Acquire] is missing; step 2 of
    the acquisition algorithm, one round per wait, and step 3. Both
    waits, the one on the priority condition variable and the one on the
    general one, are untimed for CONSENSUS_CRITICAL and bounded by
    [timeout(P)] otherwise (concurrency model); a wait that runs into its
    bound ends the acquisition without a guard (2e). *)
Fixpoint acquire_loop (key : uint256) (prio : AcquisitionPriority)
                      (constructs : bool) (evs : list WaitEvent) (p : Pool)
  : Run :=
  match acquire_step key prio constructs p with
  | Take i p' =>
      mkRun (Completed (Some (mkGuard (Some i))))
            (count_acquisition prio (add_waiting prio Nat.pred p'))
  | Propagate => mkRun Failed p
  | WaitOn w =>
      let t := GetTimeoutForPriority prio in
      match evs with
      | [] =>
          match wait t None with
          | Some _ => leave_on_timeout prio w
          | None => mkRun Blocked w
          end
      | ev :: rest =>
          let q := interfere ev w in
          match wait t (Some ev) with
          | Some no_timeout => acquire_loop key prio constructs rest q
          | Some timeout => leave_on_timeout prio q
          | None => mkRun Blocked q
          end
      end
  end.

(** Two pools with the same entries and the same capacity; the counters
    may differ. *)
Definition same_slots (p q : Pool) : Prop :=
  m_pool p = m_pool q /\ m_max_contexts p = m_max_contexts q.

(** Two pools that look the same to an acquisition of priority [prio]:
    the same slots and, unless it is consensus-critical itself, the same
    number of consensus-critical waiters. *)
Definition same_view (prio : AcquisitionPriority) (p q : Pool) : Prop :=
  same_slots p q
  /\ (prio = CONSENSUS_CRITICAL
      \/ m_waiting_consensus_critical p = m_waiting_consensus_critical q).


(** Modelled from the spec: the body of [Acquire] is missing; step 1
    (a waiter of priority [prio] appears), then the loop. *)
Definition Acquire (key : uint256) (prio : AcquisitionPriority)
                   (constructs : bool) (evs : list WaitEvent) (p : Pool)
  : Run :=
  acquire_loop key prio constructs evs (add_waiting prio S p).

(** *** The guard's special members (the header has their bodies) *)

(** The move constructor: the new guard takes the slot, [other] is left
    with a null context and [SIZE_MAX]. The pair is (new guard, [other]
    afterwards). *)
Definition ContextGuard_move (other : ContextGuard)
  : ContextGuard * ContextGuard :=
  (mkGuard (m_index other), mkGuard None).

(** The destructor: [m_pool.Return(m_index)]. *)
Definition ContextGuard_destroy (g : ContextGuard) (now : Z) (p : Pool)
  : Pool :=
  Return (m_index g) now p.

(** Every entry of the pool is checked out. *)
Definition all_in_use (es : list PoolEntry) : Prop :=
  Forall (fun e => in_use e = true) es.

(** The pool holds no more contexts than its capacity allows. *)
Definition within_capacity (p : Pool) : Prop :=
  (length (m_pool p) <= m_max_contexts p)%nat.

(** A free entry already initialised for [key]. *)
Definition has_free_with_key (key : uint256) (es : list PoolEntry) : Prop :=
  Exists (fun e => in_use e = false /\ key_hash e = key) es.

End RandomXPool.

(** ** The difficulty engine (pow.cpp) *)

Module Pow.
Import Consensus.

(** *** Compact targets

    arith_uint256.cpp is not among the sources. *)

(** Modelled from the spec: [arith_uint256::bits], the position of the
    highest set bit plus one, 0 for 0. *)
Definition bits (x : Z) : Z := if x =? 0 then 0 else Z.log2 x + 1.

(** Modelled from the spec: [arith_uint256::GetCompact] (without sign),
    the CompactTarget of the data model: the 256-bit target packed into
    the 32 bits of [nBits], a size in bytes on top of a 23-bit mantissa,
    bit 23 being the sign. [nCompact] is a [uint32_t] filled from the low
    64 bits; a mantissa that reaches the sign bit is moved down a byte. *)
Definition GetCompact (x : Z) : Z :=
  let nSize := (bits x + 7) / 8 in
  let nCompact :=
    (if nSize <=? 3 then Z.shiftl (x mod 2 ^ 64) (8 * (3 - nSize))
     else Z.shiftr x (8 * (nSize - 3)) mod 2 ^ 64) mod 2 ^ 32 in
  if Z.testbit nCompact 23
  then Z.lor (Z.shiftr nCompact 8) (Z.shiftl (nSize + 1) 24)
  else Z.lor nCompact (Z.shiftl nSize 24).

(** What [SetCompact] leaves: the 256-bit value and the two flags. *)
Record Decoded : Type := mkDecoded {
  value : Z;
  fNegative : bool;
  fOverflow : bool
}.

(** Modelled from the spec: [arith_uint256::SetCompact], the way back;
    the shift to the left is one of a 256-bit value. *)
Definition SetCompact (nCompact : Z) : Decoded :=
  let nSize := Z.shiftr nCompact 24 in
  let nWord := Z.land nCompact 0x007fffff in
  let nWord' :=
    if nSize <=? 3 then Z.shiftr nWord (8 * (3 - nSize)) else nWord in
  {| value := if nSize <=? 3 then nWord'
              else Z.shiftl nWord (8 * (nSize - 3)) mod 2 ^ 256;
     fNegative := negb (nWord' =? 0) && Z.testbit nCompact 23;
     fOverflow := negb (nWord' =? 0)
                  && ((nSize >? 34) || (nWord' >? 0xff) && (nSize >? 33)
                      || (nWord' >? 0xffff) && (nSize >? 32)) |}.

(** The target an [nBits] stands for. *)
Definition target_of (nBits : Z) : Z := value (SetCompact nBits).

(** The step between the targets a compact value can express near [x],
    and [x] cut down to a multiple of it. *)
Definition granule (x : Z) : Z := 2 ^ (8 * Z.max 0 (bits x / 8 - 2)).
Definition round_compact (x : Z) : Z := x / granule x * granule x.

(** *** Retargeting *)

(** The last block of a retarget interval: its height, its time and its
    [nBits]. *)
Record BlockIndex : Type := mkIndex {
  nHeight : Z;
  nTime : Z;
  nBits : Z
}.

(** Modelled from the spec: part of [CalculateNextWorkRequired] of
    pow.cpp, which is not among the sources (only its tests are); the
    elapsed time is clamped to [[target_timespan/4, target_timespan*4]]. *)
Definition clamp_timespan (target_timespan actual : Z) : Z :=
  if actual <? target_timespan / 4 then target_timespan / 4
  else if actual >? target_timespan * 4 then target_timespan * 4
  else actual.

(** Modelled from the spec: [CalculateNextWorkRequired] lives in pow.cpp,
    which is not among the sources (only its tests are). The rule is the
    one of the design text: the new compact target is that of
    [min(pow_limit, old_target * clamped_time / target_timespan)] with
    [pow_limit = active_limit(B_last.height + 1)], the old target being
    the one the last block's [nBits] stand for; with [no_retargeting] the
    function is the identity. The product and the quotient are those of
    the design text's formula, taken exactly. *)
Definition CalculateNextWorkRequired (pindexLast : BlockIndex)
           (nFirstBlockTime : Z) (params : Params) : Z :=
  if fPowNoRetargeting params then nBits pindexLast
  else
    let nActualTimespan :=
      clamp_timespan (nPowTargetTimespan params)
                     (nTime pindexLast - nFirstBlockTime) in
    let bnPowLimit := GetActivePowLimit params (nHeight pindexLast + 1) in
    let bnOld := target_of (nBits pindexLast) in
    let bnNew := bnOld * nActualTimespan / nPowTargetTimespan params in
    GetCompact (Z.min bnPowLimit bnNew).

End Pow.

(** ** The transaction input check (consensus/tx_verify.cpp) *)

Module TxVerify.

(** The data of the check (amounts, coins, outpoints, transactions) is
    declared in headers that are not among the sources; it is taken from
    the data model of the design text and from the tests. *)

(** [CAmount] is a 64-bit signed integer. *)
Definition CAmount : Type := Z.

(** The unit of the tests ([50 * COIN]), as in the upstream code base. *)
Definition COIN : CAmount := 100000000.

(** Modelled from the spec: consensus/consensus.h is not among the sources;
    [COINBASE_MATURITY] is exactly 100. *)
Definition COINBASE_MATURITY : Z := 100.

(** An outpoint: transaction id and output index. *)
Definition COutPoint : Type := (Z * Z)%type.

Record Coin : Type := mkCoin {
  value : CAmount;
  script : list byte;
  height : Z;
  is_coinbase : bool
}.

Record CTxOut : Type := mkTxOut {
  nValue : CAmount;
  scriptPubKey : list byte
}.

Record CTransaction : Type := mkTx {
  vin : list COutPoint;
  vout : list CTxOut
}.

(** The view holds the unspent coins; spending a coin removes it. *)
Abbreviation CCoinsView := (gmap COutPoint Coin).

Inductive TxValidationResult : Type :=
| TX_MISSING_INPUTS
| TX_PREMATURE_SPEND
| TX_CONSENSUS (reject_reason : string).

Definition GetValueOut (tx : CTransaction) : CAmount :=
  foldr Z.add 0 (nValue <$> vout tx).

Section WithCap.
(** [MAX_MONEY], the finite positive cap of consensus/amount.h. *)
Variable MAX_MONEY : CAmount.

(** Modelled from the spec: [MoneyRange] of consensus/amount.h, which is
    not among the sources; a value is valid inside [[0, MAX_MONEY]]. *)
Definition MoneyRange (v : CAmount) : bool :=
  (0 <=? v) && (v <=? MAX_MONEY).

(** Modelled from the spec: step 2 of the input check, [coin.is_coinbase]
    and [spend_height - coin.height < COINBASE_MATURITY]. *)
Definition premature (spend_height : Z) (coin : Coin) : bool :=
  is_coinbase coin && (spend_height - height coin <? COINBASE_MATURITY).

(** Modelled from the spec: the loop of [Consensus::CheckTxInputs], which
    lives in consensus/tx_verify.cpp and is not among the sources (only its
    tests are). Steps 1 to 3 of the design text, per input: fetch the coin
    (absent or spent: missing inputs), check maturity, accumulate and
    range-check. *)
Fixpoint check_inputs (view : CCoinsView) (spend_height : Z)
         (ins : list COutPoint) (sum_in : CAmount)
  : TxValidationResult + CAmount :=
  match ins with
  | [] => inr sum_in
  | o :: rest =>
      match view !! o with
      | None => inl TX_MISSING_INPUTS
      | Some coin =>
          if premature spend_height coin then inl TX_PREMATURE_SPEND
          else
            let sum_in' := sum_in + value coin in
            if negb (MoneyRange (value coin)) || negb (MoneyRange sum_in')
            then inl (TX_CONSENSUS "input-values-out-of-range")
            else check_inputs view spend_height rest sum_in'
      end
  end.

(** Modelled from the spec: [Consensus::CheckTxInputs] lives in
    consensus/tx_verify.cpp, which is not among the sources (only its
    tests are). After the loop, steps 4 to 6 of the design text: compare
    with the sum of the outputs, range-check the fee, return it. *)
Definition CheckTxInputs (tx : CTransaction) (view : CCoinsView)
                         (spend_height : Z)
  : TxValidationResult + CAmount :=
  match check_inputs view spend_height (vin tx) 0 with
  | inl err => inl err
  | inr sum_in =>
      let sum_out := GetValueOut tx in
      if sum_in <? sum_out then inl (TX_CONSENSUS "bad-txns-in-belowout")
      else
        let fee := sum_in - sum_out in
        if negb (MoneyRange fee)
        then inl (TX_CONSENSUS "fee-out-of-range")
        else inr fee
  end.

(** The quantities the properties speak about, over the prevouts of
    the inputs. *)
Definition coin_value (view : CCoinsView) (o : COutPoint) : CAmount :=
  from_option value 0 (view !! o).

Definition sum_values (view : CCoinsView) (ins : list COutPoint)
  : CAmount :=
  foldr Z.add 0 (coin_value view <$> ins).

Definition all_exist (view : CCoinsView) (ins : list COutPoint) : Prop :=
  Forall (fun o => is_Some (view !! o)) ins.

Definition all_mature (view : CCoinsView) (spend_height : Z)
                      (ins : list COutPoint) : Prop :=
  Forall (fun o => forall coin, view !! o = Some coin ->
            is_coinbase coin = true ->
            spend_height - height coin >= COINBASE_MATURITY) ins.

Definition all_in_range (view : CCoinsView) (ins : list COutPoint)
  : Prop :=
  Forall (fun o => forall coin, view !! o = Some coin ->
            0 <= value coin <= MAX_MONEY) ins.

(** The success condition as the design text states it: the inputs
    exist, the sum of the inputs lies in [[sum_out, MAX_MONEY]], every
    coinbase input is mature. *)
Definition spec_succeeds (tx : CTransaction) (view : CCoinsView)
                         (spend_height : Z) : Prop :=
  all_exist view (vin tx)
  /\ GetValueOut tx <= sum_values view (vin tx) <= MAX_MONEY
  /\ all_mature view spend_height (vin tx).

(** The success condition of the steps above: in addition every input
    value lies in [[0, MAX_MONEY]] and so does the fee. *)
Definition succeeds (tx : CTransaction) (view : CCoinsView)
                    (spend_height : Z) : Prop :=
  spec_succeeds tx view spend_height
  /\ all_in_range view (vin tx)
  /\ sum_values view (vin tx) - GetValueOut tx <= MAX_MONEY.

End WithCap.

End TxVerify.

(** ** Concrete configurations used in the examples *)

Module Scenarios.
Import Consensus.

(** [testParams] of the emergency tests: fork at 1, emergency at 100. *)
Definition emergency_params : Params :=
  {| powLimit := 2 ^ 224 - 1;
     fPowAllowMinDifficultyBlocks := false;
     fPowNoRetargeting := false;
     nPowTargetSpacing := 120;
     nPowTargetTimespan := 1209600;
     nRandomXForkHeight := 1;
     nRandomXKeyBlockInterval := 32;
     powLimitRandomX := 2 ^ 240 - 1;
     nArgon2EmergencyHeight := 100;
     nArgon2MemoryCost := 2 ^ 21;
     nArgon2TimeCost := 1;
     nArgon2Parallelism := 1;
     powLimitArgon2 := 2 ^ 248 - 1 |}.

(** As in [pow_limit_fallback_when_randomx_limit_null], with the emergency
    switched on: only the SHA256d limit is set. *)
Definition only_sha256d_limit_params : Params :=
  {| powLimit := 2 ^ 224 - 1;
     fPowAllowMinDifficultyBlocks := false;
     fPowNoRetargeting := false;
     nPowTargetSpacing := 120;
     nPowTargetTimespan := 1209600;
     nRandomXForkHeight := 1;
     nRandomXKeyBlockInterval := 32;
     powLimitRandomX := 0;
     nArgon2EmergencyHeight := 100;
     nArgon2MemoryCost := 2 ^ 21;
     nArgon2TimeCost := 1;
     nArgon2Parallelism := 1;
     powLimitArgon2 := 0 |}.

(** A libsodium build on a host where [sodium_init] reports failure. *)
Definition sodium_init_failing : Argon2.Platform :=
  {| Argon2.USE_LIBSODIUM := true;
     Argon2.sodium_init := -1;
     Argon2.crypto_pwhash := fun _ _ _ _ _ _ => None;
     Argon2.CSHA256 := SHA256.hash |}.



(** The contexts of the Argon2 tests, [Argon2Context ctx(1 << 16, 1, 1)],
    and the same with another parallelism. *)
Definition ctx_64MB : Argon2.Argon2Context :=
  Argon2.mkContext true (2 ^ 16) 1 1.



(** A pool of two contexts, both checked out. *)
Definition exhausted_pool : RandomXPool.Pool :=
  RandomXPool.mkPool
    [RandomXPool.mkEntry 1 0 true; RandomXPool.mkEntry 2 5 true]
    2 0 0 0 2 0 0 0 0 0 0.

(** Slot 0 comes back at time 10; the waiter is notified 500 s into its
    wait. *)
Definition late_release : RandomXPool.WaitEvent :=
  RandomXPool.mkEvent [RandomXPool.OtherReturn 0 10] (Some 500).


(** Retargeting across a fork at which the limit drops: the interval is
    10080 blocks, RandomX starts at 10080 with a limit 65536 times below
    the SHA256d one. *)
Definition limit_drop_params : Params :=
  {| powLimit := 2 ^ 240 - 1;
     fPowAllowMinDifficultyBlocks := false;
     fPowNoRetargeting := false;
     nPowTargetSpacing := 120;
     nPowTargetTimespan := 1209600;
     nRandomXForkHeight := 10080;
     nRandomXKeyBlockInterval := 32;
     powLimitRandomX := 2 ^ 224 - 1;
     nArgon2EmergencyHeight := -1;
     nArgon2MemoryCost := 2 ^ 21;
     nArgon2TimeCost := 1;
     nArgon2Parallelism := 1;
     powLimitArgon2 := 0 |}.

(** The last SHA256d block, at the compact form of the SHA256d limit
    ([0x1f00ffff], the target [0xffff * 256^28]), exactly on schedule. *)
Definition last_sha256d_block : Pow.BlockIndex :=
  Pow.mkIndex 10079 (1733616000 + 1209600) 0x1f00ffff.

(** The last block of an ordinary interval under [emergency_params],
    with the [nBits] of [difficulty_4x_upper_bound], four times too
    fast. *)
Definition fast_block : Pow.BlockIndex :=
  Pow.mkIndex 20159 (1733616000 + 302400) 0x1e00ffff.

(** The same interval with a mantissa of all ones, [0x1c7fffff]. *)
Definition fast_block_full_mantissa : Pow.BlockIndex :=
  Pow.mkIndex 20159 (1733616000 + 302400) 0x1c7fffff.

(** A target timespan that is no multiple of four. *)
Definition timespan_10_params : Params :=
  {| powLimit := 2 ^ 224 - 1;
     fPowAllowMinDifficultyBlocks := false;
     fPowNoRetargeting := false;
     nPowTargetSpacing := 1;
     nPowTargetTimespan := 10;
     nRandomXForkHeight := 1;
     nRandomXKeyBlockInterval := 32;
     powLimitRandomX := 2 ^ 240 - 1;
     nArgon2EmergencyHeight := -1;
     nArgon2MemoryCost := 2 ^ 21;
     nArgon2TimeCost := 1;
     nArgon2Parallelism := 1;
     powLimitArgon2 := 0 |}.

(** A block with the target 4 ([0x03000004]), at the very end of an
    interval that took no time at all. *)
Definition instant_block : Pow.BlockIndex :=
  Pow.mkIndex 19 1733616000 0x03000004.

(** The cap of the upstream code base, [21000000 * COIN]. *)
Definition upstream_MAX_MONEY : TxVerify.CAmount := 21000000 * TxVerify.COIN.

(** The coinbase of the maturity tests: 50 coins created at height 100. *)
Definition coinbase_at_100 : TxVerify.Coin :=
  TxVerify.mkCoin (50 * TxVerify.COIN) [] 100 true.
Definition coinbase_view : gmap TxVerify.COutPoint TxVerify.Coin :=
  {[ (1, 0) := coinbase_at_100 ]}.
Definition spend_coinbase : TxVerify.CTransaction :=
  TxVerify.mkTx [(1, 0)] [TxVerify.mkTxOut (50 * TxVerify.COIN) []].

(** A view holding a coin of negative value next to an ordinary one, and
    a transaction spending both. *)
Definition negative_coin_view : gmap TxVerify.COutPoint TxVerify.Coin :=
  {[ (1, 0) := TxVerify.mkCoin (- TxVerify.COIN) [] 100 false;
     (1, 1) := TxVerify.mkCoin (3 * TxVerify.COIN) [] 100 false ]}.
Definition spend_both : TxVerify.CTransaction :=
  TxVerify.mkTx [(1, 0); (1, 1)] [TxVerify.mkTxOut (2 * TxVerify.COIN) []].

End Scenarios.

(** * Properties *)

Lemma wrap_int_id (z : Z) : in_int z -> wrap_int z = z.
Proof.
  unfold in_int, int_min, int_max, wrap_int. intros Hz.
  rewrite Z.mod_small by lia. lia.
Qed.

Lemma int_div_nonneg (a b : Z) :
  0 <= a -> 0 < b -> int_div a b = Some (a / b).
Proof.
  intros Ha Hb. unfold int_div.
  destruct (Z.eqb_spec b 0) as [->|_]; [lia|].
  destruct (Z.eqb_spec b (-1)) as [->|_]; [lia|].
  rewrite andb_false_r. f_equal. apply Z.quot_div_nonneg; lia.
Qed.

Module ConsensusFacts.
Import Consensus Scenarios.

Lemma IsArgon2EmergencyActive_spec (p : Params) (h : Z) :
  IsArgon2EmergencyActive p h = true
  <-> 0 <= nArgon2EmergencyHeight p <= h.
Proof.
  unfold IsArgon2EmergencyActive.
  rewrite andb_true_iff, !Z.geb_leb, !Z.leb_le. lia.
Qed.

Lemma IsRandomXActive_spec (p : Params) (h : Z) :
  IsRandomXActive p h = true
  <-> nRandomXForkHeight p <= h /\ IsArgon2EmergencyActive p h = false.
Proof.
  unfold IsRandomXActive.
  rewrite andb_true_iff, negb_true_iff, Z.geb_leb, Z.leb_le. tauto.
Qed.

(** C1. The selector returns ARGON2ID when the emergency height is
    non-negative and reached, otherwise RANDOMX from the fork height on,
    otherwise SHA256D (at every height, in particular every [H >= 0]);
    with fork height 1 and emergency height 100 it gives RANDOMX at 99 and
    ARGON2ID at 100 and 200. *)
Theorem GetPowAlgorithm_selector (p : Params) :
  (forall H : Z, 0 <= H ->
     GetPowAlgorithm p H
     = spec_selector (nArgon2EmergencyHeight p) (nRandomXForkHeight p) H)
  /\ (nRandomXForkHeight p = 1 -> nArgon2EmergencyHeight p = 100 ->
      GetPowAlgorithm p 99 = RANDOMX
      /\ GetPowAlgorithm p 100 = ARGON2ID
      /\ GetPowAlgorithm p 200 = ARGON2ID).
Proof.
  split.
  - intros H _. unfold GetPowAlgorithm, spec_selector, IsRandomXActive.
    fold (IsArgon2EmergencyActive p H).
    destruct (IsArgon2EmergencyActive p H); [reflexivity|].
    rewrite andb_true_r. reflexivity.
  - intros Hfork Hem.
    unfold GetPowAlgorithm, IsRandomXActive, IsArgon2EmergencyActive.
    rewrite Hfork, Hem. repeat split; reflexivity.
Qed.

Lemma GetPowAlgorithm_selector_witness :
  GetPowAlgorithm emergency_params 57 = RANDOMX
  /\ GetPowAlgorithm emergency_params 99 = RANDOMX
  /\ GetPowAlgorithm emergency_params 100 = ARGON2ID
  /\ GetPowAlgorithm emergency_params 200 = ARGON2ID.
Proof.
  destruct (GetPowAlgorithm_selector emergency_params) as [Hsel Hex].
  split.
  - rewrite (Hsel 57) by lia. reflexivity.
  - apply Hex; reflexivity.
Defined.

(** C10. A negative emergency height, whichever it is, keeps the Argon2
    emergency inactive at every height, so ARGON2ID is never selected. *)
Theorem negative_emergency_height_never_active (p : Params) (H : Z) :
  nArgon2EmergencyHeight p < 0 -> 0 <= H ->
  IsArgon2EmergencyActive p H = false /\ GetPowAlgorithm p H <> ARGON2ID.
Proof.
  intros Hneg _.
  assert (Hoff : IsArgon2EmergencyActive p H = false).
  { apply not_true_iff_false. rewrite IsArgon2EmergencyActive_spec. lia. }
  split; [exact Hoff|].
  unfold GetPowAlgorithm. rewrite Hoff.
  destruct (IsRandomXActive p H); discriminate.
Qed.

Lemma negative_emergency_height_never_active_witness :
  IsArgon2EmergencyActive default_Params 1000000 = false
  /\ GetPowAlgorithm default_Params 1000000 <> ARGON2ID.
Proof.
  apply negative_emergency_height_never_active; simpl; lia.
Defined.

(** C9. The legacy accessor [GetRandomXPowLimit] returns, at every
    height, exactly what [GetActivePowLimit] returns: the two are the
    same function. *)
Theorem GetRandomXPowLimit_is_GetActivePowLimit :
  GetRandomXPowLimit = GetActivePowLimit
  /\ forall (p : Params) (H : Z),
       GetRandomXPowLimit p H = GetActivePowLimit p H.
Proof. split; reflexivity. Qed.

(** With the SHA256d limit set, the active limit is null in one case only:
    the emergency algorithm is selected and both the Argon2 and the RandomX
    limit are null. *)
Lemma GetActivePowLimit_null_iff (p : Params) (H : Z) :
  IsNull (powLimit p) = false ->
  IsNull (GetActivePowLimit p H) = true
  <-> GetPowAlgorithm p H = ARGON2ID
      /\ IsNull (powLimitArgon2 p) = true
      /\ IsNull (powLimitRandomX p) = true.
Proof.
  intros Hsha. unfold GetActivePowLimit.
  destruct (GetPowAlgorithm p H) eqn:Halg.
  - split; [congruence|]. intros (Habs & _). discriminate Habs.
  - destruct (IsNull (powLimitRandomX p)) eqn:Hrx;
      (split; [congruence|]; intros (Habs & _); discriminate Habs).
  - destruct (IsNull (powLimitArgon2 p)) eqn:Ha2.
    + destruct (IsNull (powLimitRandomX p)) eqn:Hrx.
      * tauto.
      * split; [congruence|]. intros (_ & _ & Habs). discriminate Habs.
    + split; [congruence|]. intros (_ & Habs & _). discriminate Habs.
Qed.

(** C3. With the emergency algorithm selected and both the Argon2 and the
    RandomX limit null, [GetActivePowLimit] hands back the null RandomX
    limit although the SHA256d limit is set: the chain stops one step
    short. *)
Theorem GetActivePowLimit_null_under_emergency :
  IsNull (powLimit only_sha256d_limit_params) = false
  /\ GetPowAlgorithm only_sha256d_limit_params 100 = ARGON2ID
  /\ GetActivePowLimit only_sha256d_limit_params 100 = 0
  /\ IsNull (GetActivePowLimit only_sha256d_limit_params 100) = true
  /\ GetActivePowLimit only_sha256d_limit_params 99
     = powLimit only_sha256d_limit_params.
Proof. repeat split. Qed.

(** C5. For a height [H >= 0] and a key interval [> 0] the key block
    height is [max(0, (H / interval) * interval - interval)]; it lies in
    [[0, H]], is a multiple of the interval, and is 0 for every
    [H <= 2 * interval - 1]. *)
Theorem GetRandomXKeyBlockHeight_spec (p : Params) (H : Z) :
  in_int H -> in_int (nRandomXKeyBlockInterval p) ->
  0 <= H -> 0 < nRandomXKeyBlockInterval p ->
  let k := spec_key_height (nRandomXKeyBlockInterval p) H in
  GetRandomXKeyBlockHeight p H = Some k
  /\ 0 <= k <= H
  /\ (nRandomXKeyBlockInterval p | k)
  /\ (H <= 2 * nRandomXKeyBlockInterval p - 1 -> k = 0).
Proof.
  set (I := nRandomXKeyBlockInterval p).
  intros HH HI H0 I0 k.
  assert (Hq : 0 <= H / I) by (apply Z.div_pos; lia).
  assert (Hle : H / I * I <= H) by (rewrite Z.mul_comm; apply Z.mul_div_le; lia).
  assert (Hge : 0 <= H / I * I) by nia.
  unfold in_int, int_min, int_max in HH, HI.
  split; [|split; [|split]].
  - unfold GetRandomXKeyBlockHeight. fold I.
    rewrite int_div_nonneg by lia. cbn [mbind option_bind].
    rewrite (wrap_int_id (H / I * I)) by (unfold in_int, int_min, int_max; lia).
    rewrite wrap_int_id by (unfold in_int, int_min, int_max; lia).
    f_equal. subst k. unfold spec_key_height.
    destruct (Z.geb_spec (H / I * I - I) 0); lia.
  - subst k. unfold spec_key_height. lia.
  - subst k. unfold spec_key_height.
    destruct (Z.max_spec 0 (H / I * I - I)) as [[_ ->]|[_ ->]].
    + exists (H / I - 1). lia.
    + exists 0. lia.
  - intros Hsmall. subst k. unfold spec_key_height.
    assert (H / I < 2) by (apply Z.div_lt_upper_bound; lia).
    nia.
Qed.

Lemma GetRandomXKeyBlockHeight_spec_witness :
  GetRandomXKeyBlockHeight default_Params 100 = Some 64
  /\ GetRandomXKeyBlockHeight default_Params 63 = Some 0.
Proof.
  split.
  - apply (GetRandomXKeyBlockHeight_spec default_Params 100);
      unfold in_int, int_min, int_max; simpl; lia.
  - apply (GetRandomXKeyBlockHeight_spec default_Params 63);
      unfold in_int, int_min, int_max; simpl; lia.
Defined.

End ConsensusFacts.

Module Argon2Facts.
Import Argon2 Scenarios.

Lemma check_ok (failed : bool) (e : exception) (A : Type) (k : result A) :
  failed = false -> (check failed e;; k) = k.
Proof. intros ->. reflexivity. Qed.

Lemma check_throw (failed : bool) (e : exception) (A : Type) (k : result A) :
  failed = true -> (check failed e;; k) = Throw e.
Proof. intros ->. reflexivity. Qed.

(** Construction with the three parameters in range: only the platform
    initialisation is left to fail. *)
Lemma new_Argon2Context_in_range (pf : Platform) (m t par : Z) :
  8 <= m -> 1 <= t -> 1 <= par ->
  new_Argon2Context pf m t par
  = if USE_LIBSODIUM pf && (sodium_init pf <? 0)
    then Throw (runtime_error "Failed to initialize libsodium")
    else Ok (mkContext true m t par).
Proof.
  intros Hm Ht Hp. unfold new_Argon2Context.
  rewrite !check_ok by lia.
  destruct (USE_LIBSODIUM pf && (sodium_init pf <? 0)); reflexivity.
Qed.

Lemma new_Argon2Context_out_of_range (pf : Platform) (m t par : Z) :
  m < 8 \/ t < 1 \/ par < 1 ->
  exists what, new_Argon2Context pf m t par = Throw (invalid_argument what).
Proof.
  intros Hbad. unfold new_Argon2Context.
  destruct (Z.ltb_spec m 8); [eexists; reflexivity|].
  destruct (Z.ltb_spec t 1); [eexists; reflexivity|].
  destruct (Z.ltb_spec par 1); [eexists; reflexivity|].
  lia.
Qed.

(** C8, as the code has it. Construction throws a parameter-validation
    error ([invalid_argument]) exactly when [memory_cost < 8],
    [time_cost < 1] or [parallelism < 1]. With all three in range it
    succeeds and the context reports itself initialised (and returns the
    three parameters), unless the build uses libsodium and [sodium_init]
    reports failure: then it throws a runtime error instead. *)
Theorem new_Argon2Context_spec (pf : Platform) (m t par : Z) :
  ((exists what, new_Argon2Context pf m t par = Throw (invalid_argument what))
   <-> (m < 8 \/ t < 1 \/ par < 1))
  /\ (8 <= m -> 1 <= t -> 1 <= par ->
      if USE_LIBSODIUM pf && (sodium_init pf <? 0)
      then new_Argon2Context pf m t par
           = Throw (runtime_error "Failed to initialize libsodium")
      else exists ctx,
             new_Argon2Context pf m t par = Ok ctx
             /\ IsInitialized ctx = true
             /\ GetMemoryCost ctx = m
             /\ GetTimeCost ctx = t
             /\ GetParallelism ctx = par).
Proof.
  split; [split|].
  - intros [what Hthrow].
    destruct (Z.ltb_spec m 8); [lia|].
    destruct (Z.ltb_spec t 1); [lia|].
    destruct (Z.ltb_spec par 1); [lia|].
    rewrite new_Argon2Context_in_range in Hthrow by lia.
    destruct (USE_LIBSODIUM pf && (sodium_init pf <? 0)); discriminate.
  - apply new_Argon2Context_out_of_range.
  - intros Hm Ht Hp. rewrite new_Argon2Context_in_range by lia.
    destruct (USE_LIBSODIUM pf && (sodium_init pf <? 0)); [reflexivity|].
    eexists. repeat split.
Qed.

Lemma new_Argon2Context_spec_witness :
  exists ctx,
    new_Argon2Context fallback_build (2 ^ 16) 1 1 = Ok ctx
    /\ IsInitialized ctx = true
    /\ GetMemoryCost ctx = 2 ^ 16
    /\ GetTimeCost ctx = 1
    /\ GetParallelism ctx = 1.
Proof.
  apply (proj2 (new_Argon2Context_spec fallback_build (2 ^ 16) 1 1)); lia.
Defined.

(** C8, counterexample. All three parameters are in range and
    construction still fails: libsodium is compiled in and [sodium_init]
    returns -1. *)
Lemma new_Argon2Context_fails_in_range :
  8 <= 2 ^ 16 /\ 1 <= 1 /\ 1 <= 1
  /\ new_Argon2Context sodium_init_failing (2 ^ 16) 1 1
     = Throw (runtime_error "Failed to initialize libsodium").
Proof.
  split; [lia|]. split; [lia|]. split; [lia|]. reflexivity.
Qed.

(** *** Hashing *)

(** The FIPS 180-4 sample: SHA-256 of "abc". *)
Example SHA256_abc :
  map byte.unsigned (SHA256.hash [Byte.x61; Byte.x62; Byte.x63])
  = [ 0xba; 0x78; 0x16; 0xbf; 0x8f; 0x01; 0xcf; 0xea;
      0x41; 0x41; 0x40; 0xde; 0x5d; 0xae; 0x22; 0x23;
      0xb0; 0x03; 0x61; 0xa3; 0x96; 0x17; 0x7a; 0x9c;
      0xb4; 0x10; 0xff; 0x61; 0xf2; 0x00; 0x15; 0xad ].
Proof. vm_compute. reflexivity. Qed.


Lemma uint256_bytes_inj (s1 s2 : uint256) :
  in_uint256 s1 -> in_uint256 s2 ->
  uint256_bytes s1 = uint256_bytes s2 -> s1 = s2.
Proof.
  unfold in_uint256, uint256_bytes. intros H1 H2 Heq.
  apply (f_equal le_combine) in Heq.
  rewrite !le_combine_split in Heq.
  change (Z.of_nat 32 * 8) with 256 in Heq.
  rewrite !Z.mod_small in Heq by lia. exact Heq.
Qed.

Lemma uint32_bytes_inj (x y : Z) :
  in_uint32 x -> in_uint32 y -> uint32_bytes x = uint32_bytes y -> x = y.
Proof.
  unfold in_uint32, uint32_max, uint32_bytes. intros H1 H2 Heq.
  apply (f_equal le_combine) in Heq.
  rewrite !le_combine_split in Heq.
  change (Z.of_nat 4 * 8) with 32 in Heq.
  rewrite !Z.mod_small in Heq by lia. exact Heq.
Qed.




Section Requests.
Variables c1 c2 : Argon2Context.
Variables d1 d2 : list byte.
Variables s1 s2 : uint256.
Hypothesis salt1_range : in_uint256 s1.
Hypothesis salt2_range : in_uint256 s2.
Hypothesis memory1_range : in_uint32 (m_memory_cost c1).
Hypothesis memory2_range : in_uint32 (m_memory_cost c2).
Hypothesis time1_range : in_uint32 (m_time_cost c1).
Hypothesis time2_range : in_uint32 (m_time_cost c2).

(** The bytes written into the fallback hasher determine the data, the
    salt, the memory cost and the time cost. *)
Lemma fallback_preimage_inj :
  fallback_preimage c1 d1 s1 = fallback_preimage c2 d2 s2 ->
  d1 = d2 /\ s1 = s2
  /\ m_memory_cost c1 = m_memory_cost c2
  /\ m_time_cost c1 = m_time_cost c2.
Proof.
  unfold fallback_preimage. intros Heq.
  apply app_inj_2 in Heq as [Hd Heq];
    [|rewrite !length_app; unfold uint256_bytes, uint32_bytes;
      rewrite !length_le_split; reflexivity].
  apply app_inj_1 in Heq as [Hs Heq];
    [|unfold uint256_bytes; rewrite !length_le_split; reflexivity].
  apply app_inj_1 in Heq as [Hm Ht];
    [|unfold uint32_bytes; rewrite !length_le_split; reflexivity].
  auto using uint256_bytes_inj, uint32_bytes_inj.
Qed.


End Requests.




Section Hashing.
Variable pf : Platform.
(** The hasher writes 32 bytes; [crypto_pwhash] fills the 32 bytes it is
    asked for. *)
Hypothesis CSHA256_length :
  forall msg, length (CSHA256 pf msg) = 32%nat.
Hypothesis crypto_pwhash_length :
  forall pw salt ops mem alg out,
    crypto_pwhash pf HASH_LENGTH pw salt ops mem alg = Some out ->
    length out = 32%nat.


End Hashing.




End Argon2Facts.

Module PoolFacts.
Import RandomXPool Scenarios.

Lemma critical_never_yields (p : Pool) :
  ShouldYieldToHigherPriority p CONSENSUS_CRITICAL = false.
Proof. reflexivity. Qed.

(** *** The waits *)




(** *** Entries, capacity and the consensus-critical waiters are all an
    acquisition looks at *)

Lemma same_slots_refl (p : Pool) : same_slots p p.
Proof. split; reflexivity. Qed.


Lemma same_slots_count_wait (p : Pool) : same_slots (count_wait p) p.
Proof. split; reflexivity. Qed.








(** What a round decides, read off the pool. *)
Lemma acquire_step_cases (key : uint256) (prio : AcquisitionPriority)
      (constructs : bool) (p : Pool) :
  match acquire_step key prio constructs p with
  | Take i p' =>
      ShouldYieldToHigherPriority p prio = false
      /\ FindOrCreateContext key p = Some (i, p')
      /\ (constructs = true \/ needs_construction key p = false)
  | Propagate =>
      ShouldYieldToHigherPriority p prio = false
      /\ is_Some (FindOrCreateContext key p)
      /\ constructs = false /\ needs_construction key p = true
  | WaitOn w =>
      same_view prio w p
      /\ (ShouldYieldToHigherPriority p prio = true
          \/ FindOrCreateContext key p = None)
  end.
Proof.
  unfold acquire_step.
  destruct (ShouldYieldToHigherPriority p prio) eqn:Hyield.
  - split; [|left; reflexivity]. unfold yielded.
    destruct (decide (prio = NORMAL)); (split; [split; reflexivity|]);
      right; reflexivity.
  - destruct (FindOrCreateContext key p) as [[i p']|] eqn:Hfind.
    + destruct (needs_construction key p), constructs; cbn; eauto 6.
    + split; [|right; reflexivity].
      split; [apply same_slots_count_wait|right; reflexivity].
Qed.



(** *** The loop *)







End PoolFacts.

Module PowFacts.
Import Consensus Pow Scenarios.

Lemma clamp_timespan_bounds (T actual : Z) :
  0 < T -> T / 4 <= clamp_timespan T actual <= T * 4.
Proof.
  intros HT. unfold clamp_timespan.
  assert (T / 4 <= T) by (apply Z.div_le_upper_bound; lia).
  destruct (Z.ltb_spec actual (T / 4)); [lia|].
  destruct (Z.gtb_spec actual (T * 4)); lia.
Qed.

(** Scaling by a clamped time keeps the target within a factor of four,
    the lower side up to the rounding of [T / 4]. *)
Lemma scaled_target_bounds (T old c : Z) :
  0 < T -> 0 <= old -> T / 4 <= c <= T * 4 ->
  0 <= old * c / T <= old * 4
  /\ (T mod 4 = 0 -> old / 4 <= old * c / T).
Proof.
  intros HT Hold Hc.
  assert (H4 : 0 <= T / 4) by (apply Z.div_pos; lia).
  split; [split|].
  - apply Z.div_pos; [nia|lia].
  - apply Z.div_le_upper_bound; [lia|]. nia.
  - intros Hmod.
    assert (HT4 : T = 4 * (T / 4)) by (apply Z_div_exact_full_2; lia).
    assert (Hk : 0 < T / 4) by lia.
    assert (Hquarter : old * (T / 4) / (4 * (T / 4)) = old / 4)
      by (rewrite Z.div_mul_cancel_r by lia; reflexivity).
    rewrite <- HT4 in Hquarter. rewrite <- Hquarter.
    apply Z.div_le_mono; [lia|]. nia.
Qed.

(** *** The compact encoding *)

Ltac is_num t :=
  lazymatch t with Z0 => idtac | Zpos _ => idtac | Zneg _ => idtac end.

Ltac fold_with f a b :=
  is_num a; is_num b;
  let v := eval vm_compute in (f a b) in
  change (f a b) with v in *.

(** Evaluates the arithmetic on numerals in the goal and the hypotheses. *)
Ltac fold_numerals :=
  repeat match goal with
         | |- context [Z.add ?a ?b] => fold_with Z.add a b
         | |- context [Z.sub ?a ?b] => fold_with Z.sub a b
         | |- context [Z.mul ?a ?b] => fold_with Z.mul a b
         | |- context [Z.pow ?a ?b] => fold_with Z.pow a b
         | |- context [Z.div ?a ?b] => fold_with Z.div a b
         | |- context [Z.max ?a ?b] => fold_with Z.max a b
         | |- context [Z.leb ?a ?b] => fold_with Z.leb a b
         | H : context [Z.add ?a ?b] |- _ => fold_with Z.add a b
         | H : context [Z.sub ?a ?b] |- _ => fold_with Z.sub a b
         | H : context [Z.mul ?a ?b] |- _ => fold_with Z.mul a b
         | H : context [Z.pow ?a ?b] |- _ => fold_with Z.pow a b
         end.


Lemma bits_spec (x : Z) : 0 < x -> 2 ^ (bits x - 1) <= x < 2 ^ bits x.
Proof.
  intros Hx. unfold bits. destruct (Z.eqb_spec x 0); [lia|].
  replace (Z.log2 x + 1 - 1) with (Z.log2 x) by lia.
  replace (Z.log2 x + 1) with (Z.succ (Z.log2 x)) by lia.
  apply Z.log2_spec, Hx.
Qed.

Lemma bits_upper (x k : Z) : 0 <= x -> 0 <= k -> (bits x <= k <-> x < 2 ^ k).
Proof.
  intros Hx Hk. destruct (Z.eq_dec x 0) as [->|Hne].
  - unfold bits. cbn. split; intros; [apply Z.pow_pos_nonneg; lia|lia].
  - pose proof (bits_spec x ltac:(lia)) as [Hlo Hhi]. split.
    + intros Hle. eapply Z.lt_le_trans; [exact Hhi|].
      apply Z.pow_le_mono_r; lia.
    + intros Hlt. destruct (Z.le_gt_cases (bits x) k) as [|Hgt]; [assumption|].
      assert (2 ^ k <= 2 ^ (bits x - 1)) by (apply Z.pow_le_mono_r; lia). lia.
Qed.

Lemma testbit_top (c k : Z) :
  0 <= k -> 0 <= c < 2 ^ (k + 1) -> Z.testbit c k = (2 ^ k <=? c).
Proof.
  intros Hk Hc. 
  destruct (Z.leb_spec (2 ^ k) c) as [Hge|Hlt].
  - apply Z.testbit_true; [lia|].
    assert (c / 2 ^ k = 1).
    { symmetry. apply (Z.div_unique c (2 ^ k) 1 (c - 2 ^ k)).
      - left. rewrite Z.pow_add_r in Hc by lia. change (2 ^ 1) with 2 in Hc.
        lia.
      - lia. }
    rewrite H. reflexivity.
  - destruct (Z.eq_dec c 0) as [->|]; [apply Z.bits_0|].
    apply Z.bits_above_log2; [lia|].
    apply Z.log2_lt_pow2; lia.
Qed.

(** The size byte and the 23 mantissa bits. *)
Lemma compact_fields (w n : Z) :
  0 <= w < 2 ^ 23 -> 0 <= n ->
  Z.shiftr (Z.lor w (Z.shiftl n 24)) 24 = n
  /\ Z.land (Z.lor w (Z.shiftl n 24)) 0x007fffff = w.
Proof.
  intros Hw Hn. split.
  - rewrite Z.shiftr_lor, Z.shiftr_shiftl_l by lia.
    replace (24 - 24) with 0 by lia. rewrite Z.shiftl_0_r.
    rewrite Z.shiftr_div_pow2 by lia.
    rewrite Z.div_small by lia. apply Z.lor_0_l.
  - change 0x007fffff with (Z.ones 23).
    rewrite Z.land_lor_distr_l, !Z.land_ones by lia.
    rewrite Z.shiftl_mul_pow2 by lia.
    replace (n * 2 ^ 24) with (n * 2 * 2 ^ 23) by (change (2 ^ 24) with (2 * 2 ^ 23); lia).
    rewrite Z.mod_mul by lia. rewrite Z.lor_0_r. apply Z.mod_small; lia.
Qed.

Lemma decode_fields (w n : Z) :
  0 <= w < 2 ^ 23 -> 0 <= n ->
  target_of (Z.lor w (Z.shiftl n 24))
  = if n <=? 3 then w / 2 ^ (8 * (3 - n)) else (w * 2 ^ (8 * (n - 3))) mod 2 ^ 256.
Proof.
  intros Hw Hn. unfold target_of, SetCompact. cbn [value].
  destruct (compact_fields w n Hw Hn) as [-> ->].
  destruct (Z.leb_spec n 3).
  - rewrite Z.shiftr_div_pow2 by lia. reflexivity.
  - rewrite Z.shiftl_mul_pow2 by lia. reflexivity.
Qed.

Lemma size_bounds (x : Z) :
  0 < x ->
  let n := (bits x + 7) / 8 in
  1 <= n /\ 2 ^ (8 * (n - 1)) <= x < 2 ^ (8 * n).
Proof.
  intros Hx n. pose proof (bits_spec x Hx) as [Hlo Hhi].
  assert (Hb : 1 <= bits x).
  { unfold bits. destruct (Z.eqb_spec x 0); [lia|].
    pose proof (Z.log2_nonneg x). lia. }
  assert (Hn : 8 * (n - 1) < bits x <= 8 * n).
  { unfold n. pose proof (Z.div_mod (bits x + 7) 8 ltac:(lia)).
    pose proof (Z.mod_pos_bound (bits x + 7) 8 ltac:(lia)). lia. }
  split; [lia|]. split.
  - etransitivity; [|exact Hlo]. apply Z.pow_le_mono_r; lia.
  - eapply Z.lt_le_trans; [exact Hhi|]. apply Z.pow_le_mono_r; lia.
Qed.

(** Encoding and decoding cuts a target down to a multiple of its
    granule: first for the targets of up to three bytes, then for the
    larger ones. *)
Lemma round_trip_small (x : Z) :
  0 < x < 2 ^ 24 -> target_of (GetCompact x) = round_compact x.
Proof.
  intros Hx. destruct (size_bounds x ltac:(lia)) as (Hn1 & Hlo & Hhi).
  set (n := (bits x + 7) / 8) in *.
  assert (Hn3 : n <= 3).
  { assert (bits x <= 24) by (apply bits_upper; lia).
    subst n. Z.div_mod_to_equations. lia. }
  unfold GetCompact. fold n.
  destruct (Z.leb_spec n 3) as [_|]; [|lia].
  rewrite (Z.mod_small x (2 ^ 64)) by lia.
  rewrite Z.shiftl_mul_pow2 by lia.
  assert (Hc : 0 <= x * 2 ^ (8 * (3 - n)) < 2 ^ 24).
  { split; [apply Z.mul_nonneg_nonneg; [lia|apply Z.pow_nonneg; lia]|].
    replace (2 ^ 24) with (2 ^ (8 * n) * 2 ^ (8 * (3 - n)))
      by (rewrite <- Z.pow_add_r by lia; f_equal; lia).
    apply Z.mul_lt_mono_pos_r; [apply Z.pow_pos_nonneg; lia|exact Hhi]. }
  rewrite (Z.mod_small _ (2 ^ 32)) by lia.
  rewrite (testbit_top _ 23) by (change (2 ^ (23 + 1)) with (2 ^ 24); lia).
  unfold round_compact, granule.
  assert (Hcases : n = 1 \/ n = 2 \/ n = 3) by lia.
  destruct (Z.leb_spec (2 ^ 23) (x * 2 ^ (8 * (3 - n)))) as [Hset|Hclear].
  - rewrite Z.shiftr_div_pow2 by lia.
    assert (Hbits : bits x = 8 * n).
    { apply Z.le_antisymm; [apply bits_upper; lia|].
      destruct (Z.le_gt_cases (8 * n) (bits x)) as [|Hlt]; [assumption|].
      assert (bits x <= 8 * n - 1) as Hle by lia.
      apply bits_upper in Hle; [|lia..].
      assert (x * 2 ^ (8 * (3 - n)) < 2 ^ (8 * n - 1) * 2 ^ (8 * (3 - n)))
        by (apply Z.mul_lt_mono_pos_r; [apply Z.pow_pos_nonneg; lia|exact Hle]).
      rewrite <- Z.pow_add_r in H by lia.
      replace (8 * n - 1 + 8 * (3 - n)) with 23 in H by lia. lia. }
    rewrite Hbits.
    rewrite decode_fields.
    + destruct Hcases as [->|[->| ->]]; fold_numerals; cbv iota;
        Z.div_mod_to_equations; lia.
    + destruct Hcases as [->|[->| ->]]; fold_numerals;
        Z.div_mod_to_equations; lia.
    + lia.
  - assert (Hbits : bits x / 8 - 2 <= 0).
    { assert (bits x <= 8 * n - 1); [|Z.div_mod_to_equations; lia].
      apply bits_upper; [lia..|].
      destruct Hcases as [->|[->| ->]]; fold_numerals; lia. }
    rewrite decode_fields by lia.
    rewrite Z.max_l by lia.
    destruct Hcases as [->|[->| ->]]; fold_numerals; cbv iota;
      Z.div_mod_to_equations; lia.
Qed.

Lemma round_trip_large (x : Z) :
  2 ^ 24 <= x < 2 ^ 256 -> target_of (GetCompact x) = round_compact x.
Proof.
  intros Hx. destruct (size_bounds x ltac:(lia)) as (Hn1 & Hlo & Hhi).
  set (n := (bits x + 7) / 8) in *.
  assert (Hn3 : 3 < n).
  { destruct (Z.le_gt_cases n 3) as [Hle|]; [|assumption].
    assert (2 ^ (8 * n) <= 2 ^ 24) by (apply Z.pow_le_mono_r; lia). lia. }
  assert (Hn32 : n <= 32).
  { assert (bits x <= 256) by (apply bits_upper; lia).
    subst n. Z.div_mod_to_equations. lia. }
  unfold GetCompact. fold n.
  destruct (Z.leb_spec n 3) as [|_]; [lia|].
  set (k := 8 * (n - 3)) in *.
  assert (Hk : 0 <= k) by (subst k; lia).
  assert (HP : 0 < 2 ^ k) by (apply Z.pow_pos_nonneg; lia).
  rewrite Z.shiftr_div_pow2 by lia.
  assert (H8n : 2 ^ (8 * n) = 2 ^ 24 * 2 ^ k)
    by (rewrite <- Z.pow_add_r by lia; f_equal; subst k; lia).
  assert (H8n1 : 2 ^ (8 * (n - 1)) = 2 ^ 16 * 2 ^ k)
    by (rewrite <- Z.pow_add_r by lia; f_equal; subst k; lia).
  assert (Hm : 2 ^ 16 <= x / 2 ^ k < 2 ^ 24).
  { split.
    - apply Z.div_le_lower_bound; [lia|]. lia.
    - apply Z.div_lt_upper_bound; [lia|]. lia. }
  set (m := x / 2 ^ k) in *.
  rewrite (Z.mod_small m (2 ^ 64)) by lia.
  rewrite (Z.mod_small m (2 ^ 32)) by lia.
  rewrite (testbit_top _ 23) by (change (2 ^ (23 + 1)) with (2 ^ 24); lia).
  assert (Hx_m : 2 ^ k * m <= x < 2 ^ k * m + 2 ^ k).
  { subst m. pose proof (Z.mul_div_le x (2 ^ k) HP).
    pose proof (Z.mul_succ_div_gt x (2 ^ k) HP). lia. }
  unfold round_compact, granule.
  destruct (Z.leb_spec (2 ^ 23) m) as [Hset|Hclear].
  - rewrite Z.shiftr_div_pow2 by lia.
    assert (Hbits : bits x = 8 * n).
    { apply Z.le_antisymm; [apply bits_upper; lia|].
      destruct (Z.le_gt_cases (8 * n) (bits x)) as [|Hlt]; [assumption|].
      assert (bits x <= 8 * n - 1) as Hle by lia.
      apply bits_upper in Hle; [|lia..].
      assert (2 ^ (8 * n - 1) = 2 ^ 23 * 2 ^ k)
        by (rewrite <- Z.pow_add_r by lia; f_equal; subst k; lia).
      nia. }
    rewrite Hbits.
    replace (8 * n / 8) with n by (Z.div_mod_to_equations; lia).
    rewrite Z.max_r by lia.
    rewrite decode_fields;
      [|fold_numerals; Z.div_mod_to_equations; lia|lia].
    destruct (Z.leb_spec (n + 1) 3); [lia|].
    replace (8 * (n + 1 - 3)) with (8 + k) by (subst k; lia).
    replace (8 * (n - 2)) with (8 + k) by (subst k; lia).
    rewrite Z.pow_add_r by lia.
    assert (Hdiv : x / (2 ^ 8 * 2 ^ k) = m / 2 ^ 8).
    { subst m. rewrite Z.div_div by lia. f_equal. lia. }
    rewrite Hdiv. apply Z.mod_small.
    split; [apply Z.mul_nonneg_nonneg; [apply Z.div_pos; lia|lia]|].
    assert (m / 2 ^ 8 * (2 ^ 8 * 2 ^ k) <= x); [|lia].
    pose proof (Z.mul_div_le m (2 ^ 8) ltac:(lia)). nia.
  - assert (Hbits : bits x / 8 = n - 1).
    { assert (bits x <= 8 * n - 1).
      { apply bits_upper; [lia..|].
        assert (2 ^ (8 * n - 1) = 2 ^ 23 * 2 ^ k)
          by (rewrite <- Z.pow_add_r by lia; f_equal; subst k; lia).
        nia. }
      assert (8 * (n - 1) < bits x).
      { destruct (Z.le_gt_cases (bits x) (8 * (n - 1))) as [Hle|]; [|lia].
        apply bits_upper in Hle; lia. }
      Z.div_mod_to_equations. lia. }
    rewrite Hbits. rewrite Z.max_r by lia.
    rewrite decode_fields by lia.
    destruct (Z.leb_spec n 3); [lia|].
    replace (8 * (n - 1 - 2)) with k by (subst k; lia).
    fold k. fold m. apply Z.mod_small. nia.
Qed.

Lemma round_trip (x : Z) :
  0 <= x < 2 ^ 256 -> target_of (GetCompact x) = round_compact x.
Proof.
  intros Hx. destruct (Z.eq_dec x 0) as [->|]; [reflexivity|].
  destruct (Z.lt_ge_cases x (2 ^ 24)).
  - apply round_trip_small. lia.
  - apply round_trip_large. lia.
Qed.

Lemma bits_le_mono (x y : Z) : 0 <= x <= y -> bits x <= bits y.
Proof.
  intros Hxy. unfold bits.
  destruct (Z.eqb_spec x 0), (Z.eqb_spec y 0); try lia.
  - pose proof (Z.log2_nonneg y). lia.
  - pose proof (Z.log2_le_mono x y). lia.
Qed.

Lemma granule_pos (x : Z) : 0 < granule x.
Proof. unfold granule. apply Z.pow_pos_nonneg; lia. Qed.

Lemma round_compact_le (x : Z) : 0 <= x -> 0 <= round_compact x <= x.
Proof.
  intros Hx. unfold round_compact. pose proof (granule_pos x) as Hg. split.
  - apply Z.mul_nonneg_nonneg; [apply Z.div_pos; lia|lia].
  - rewrite Z.mul_comm. apply Z.mul_div_le, Hg.
Qed.

(** Above [2^23] the granule is at most the 32768th part of the value. *)
Lemma granule_small (x : Z) :
  0 <= x -> granule x = 1 \/ 32768 * granule x <= x.
Proof.
  intros Hx. unfold granule.
  destruct (Z.le_gt_cases (bits x / 8 - 2) 0) as [Hle|Hgt].
  - left. rewrite Z.max_l by lia. reflexivity.
  - right. rewrite Z.max_r by lia.
    assert (Hpos : 0 < x).
    { destruct (Z.eq_dec x 0) as [->|]; [|lia]. vm_compute in Hgt.
      discriminate Hgt. }
    pose proof (bits_spec x Hpos) as [Hlo _].
    change 32768 with (2 ^ 15). rewrite <- Z.pow_add_r by lia.
    etransitivity; [|exact Hlo]. apply Z.pow_le_mono_r; [lia|].
    Z.div_mod_to_equations. lia.
Qed.

Lemma round_compact_loss (x : Z) :
  0 <= x -> x * 32767 <= round_compact x * 32768.
Proof.
  intros Hx. unfold round_compact.
  pose proof (granule_pos x) as Hg.
  pose proof (Z.mul_succ_div_gt x (granule x) Hg) as Hgt.
  destruct (granule_small x Hx) as [H1|Hsmall].
  - rewrite H1, Z.div_1_r. lia.
  - nia.
Qed.

Lemma round_compact_mono (x y : Z) :
  0 <= x <= y -> round_compact x <= round_compact y.
Proof.
  intros Hxy. pose proof (bits_le_mono x y Hxy) as Hbits.
  destruct (Z.eq_dec (Z.max 0 (bits x / 8 - 2)) (Z.max 0 (bits y / 8 - 2)))
    as [Heq|Hne].
  - unfold round_compact, granule. rewrite Heq.
    apply Z.mul_le_mono_nonneg_r; [apply Z.pow_nonneg; lia|].
    apply Z.div_le_mono; [apply Z.pow_pos_nonneg; lia|lia].
  - assert (Hlt : bits x / 8 < bits y / 8 /\ 3 <= bits y / 8)
      by (Z.div_mod_to_equations; lia).
    destruct Hlt as [Hlt H3].
    set (B := 8 * (bits y / 8)) in *.
    assert (Hx : x < 2 ^ (B - 1)).
    { apply bits_upper; [lia|subst B; lia|].
      subst B. Z.div_mod_to_equations. lia. }
    assert (Hpos : 0 < y).
    { destruct (Z.eq_dec y 0) as [Hy0|]; [|lia]. rewrite Hy0 in H3.
      change (bits 0 / 8) with 0 in H3. lia. }
    assert (Hy : 2 ^ (B - 1) <= y).
    { pose proof (bits_spec y Hpos) as [Hlo _].
      etransitivity; [|exact Hlo]. apply Z.pow_le_mono_r; [lia|].
      subst B. Z.div_mod_to_equations. lia. }
    assert (Hgy : granule y = 2 ^ (B - 16)).
    { unfold granule. rewrite Z.max_r by lia. f_equal. subst B. lia. }
    assert (Hsplit : 2 ^ (B - 1) = 2 ^ 15 * 2 ^ (B - 16))
      by (rewrite <- Z.pow_add_r by (subst B; lia); f_equal; lia).
    pose proof (round_compact_le x ltac:(lia)) as [_ Hrx].
    apply Z.le_trans with (2 ^ (B - 1)); [lia|].
    unfold round_compact. rewrite Hgy, Hsplit.
    apply Z.mul_le_mono_nonneg_r; [apply Z.pow_nonneg; lia|].
    apply Z.div_le_lower_bound; [apply Z.pow_pos_nonneg; subst B; lia|].
    lia.
Qed.

(** What [SetCompact] gives is a multiple of its own granule. *)
Lemma round_compact_target_of (nBits : Z) :
  0 <= nBits -> round_compact (target_of nBits) = target_of nBits.
Proof.
  intros Hb. unfold target_of, SetCompact. cbn [value].
  set (n := Z.shiftr nBits 24). set (w := Z.land nBits 0x007fffff).
  assert (Hw : 0 <= w < 2 ^ 23).
  { subst w. change 0x007fffff with (Z.ones 23).
    rewrite Z.land_ones by lia. apply Z.mod_pos_bound. lia. }
  assert (Hn : 0 <= n) by (subst n; apply Z.shiftr_nonneg; lia).
  assert (Hsmall : forall v, 0 <= v < 2 ^ 23 -> round_compact v = v).
  { intros v Hv. unfold round_compact, granule.
    assert (bits v <= 23) by (apply bits_upper; lia).
    rewrite Z.max_l by (Z.div_mod_to_equations; lia).
    change (2 ^ (8 * 0)) with 1. rewrite Z.div_1_r. lia. }
  destruct (Z.leb_spec n 3).
  - apply Hsmall. rewrite Z.shiftr_div_pow2 by lia. split.
    + apply Z.div_pos; [lia|apply Z.pow_pos_nonneg; lia].
    + apply Z.div_lt_upper_bound; [apply Z.pow_pos_nonneg; lia|].
      assert (0 < 2 ^ (8 * (3 - n))) by (apply Z.pow_pos_nonneg; lia).
      nia.
  - set (k := 8 * (n - 3)). assert (Hk : 8 <= k) by (subst k; lia).
    rewrite Z.shiftl_mul_pow2 by lia.
    destruct (Z.le_gt_cases 256 k) as [Hbig|Hfit].
    + replace (w * 2 ^ k) with (w * 2 ^ (k - 256) * 2 ^ 256)
        by (rewrite <- Z.mul_assoc, <- Z.pow_add_r by lia; do 2 f_equal; lia).
      rewrite Z.mod_mul by lia. reflexivity.
    + replace (2 ^ 256) with (2 ^ (256 - k) * 2 ^ k)
        by (rewrite <- Z.pow_add_r by lia; f_equal; lia).
      rewrite Z.mul_mod_distr_r
        by (apply Z.pow_nonzero || idtac; lia).
      set (w' := w mod 2 ^ (256 - k)).
      assert (Hw' : 0 <= w' < 2 ^ 23).
      { subst w'. pose proof (Z.mod_pos_bound w (2 ^ (256 - k))
                                ltac:(apply Z.pow_pos_nonneg; lia)).
        pose proof (Z.mod_le w (2 ^ (256 - k)) ltac:(lia)
                      ltac:(apply Z.pow_pos_nonneg; lia)). lia. }
      unfold round_compact, granule.
      assert (HP : 0 < 2 ^ k) by (apply Z.pow_pos_nonneg; lia).
      assert (Hbits : bits (w' * 2 ^ k) <= 23 + k).
      { apply bits_upper; [nia|lia|]. rewrite Z.pow_add_r by lia. nia. }
      set (e := 8 * Z.max 0 (bits (w' * 2 ^ k) / 8 - 2)).
      assert (He : 0 <= e <= k).
      { subst e k. Z.div_mod_to_equations. lia. }
      assert (Hv : w' * 2 ^ k = w' * 2 ^ (k - e) * 2 ^ e)
        by (rewrite <- Z.mul_assoc, <- Z.pow_add_r by lia; do 2 f_equal; lia).
      assert (Hq : w' * 2 ^ k / 2 ^ e = w' * 2 ^ (k - e)).
      { transitivity (w' * 2 ^ (k - e) * 2 ^ e / 2 ^ e);
          [f_equal; exact Hv|apply Z.div_mul, Z.pow_nonzero; lia]. }
      rewrite Hq. symmetry. exact Hv.
Qed.

Lemma target_of_range (nBits : Z) :
  0 <= nBits -> 0 <= target_of nBits < 2 ^ 256.
Proof.
  intros Hb. unfold target_of, SetCompact. cbn [value].
  set (n := Z.shiftr nBits 24). set (w := Z.land nBits 0x007fffff).
  assert (Hw : 0 <= w < 2 ^ 23).
  { subst w. change 0x007fffff with (Z.ones 23).
    rewrite Z.land_ones by lia. apply Z.mod_pos_bound. lia. }
  destruct (Z.leb_spec n 3).
  - rewrite Z.shiftr_div_pow2 by lia.
    assert (HP : 0 < 2 ^ (8 * (3 - n))) by (apply Z.pow_pos_nonneg; lia).
    split; [apply Z.div_pos; lia|].
    apply Z.div_lt_upper_bound; [lia|]. nia.
  - apply Z.mod_pos_bound. lia.
Qed.

(** *** The retarget step *)

(** With retargeting on, the target of the new [nBits] is the exact
    result of the rule cut down to what a compact value can express. *)
Lemma next_target_spec (pindexLast : BlockIndex) (nFirstBlockTime : Z)
      (params : Params) :
  fPowNoRetargeting params = false ->
  0 < nPowTargetTimespan params ->
  0 <= nBits pindexLast ->
  in_uint256 (GetActivePowLimit params (nHeight pindexLast + 1)) ->
  let exact :=
    Z.min (GetActivePowLimit params (nHeight pindexLast + 1))
          (target_of (nBits pindexLast)
           * clamp_timespan (nPowTargetTimespan params)
                            (nTime pindexLast - nFirstBlockTime)
           / nPowTargetTimespan params) in
  0 <= exact
  /\ target_of (CalculateNextWorkRequired pindexLast nFirstBlockTime params)
     = round_compact exact.
Proof.
  intros Hon HT Hbits [Hl0 Hl256] exact.
  pose proof (target_of_range _ Hbits) as [Hold _].
  pose proof (clamp_timespan_bounds (nPowTargetTimespan params)
                (nTime pindexLast - nFirstBlockTime) HT) as Hclamp.
  destruct (scaled_target_bounds _ (target_of (nBits pindexLast)) _
              HT Hold Hclamp) as [[Hnonneg _] _].
  assert (Hexact : 0 <= exact < 2 ^ 256) by (subst exact; lia).
  split; [lia|].
  unfold CalculateNextWorkRequired. rewrite Hon.
  apply round_trip. exact Hexact.
Qed.

(** C6, as the rule has it. With retargeting on and a positive
    timespan, the target of the new [nBits] is at most the active limit
    of the next height and at most four times the old target. When the
    timespan is a multiple of four and a quarter of the old target does
    not exceed the limit, the new target is at least that quarter cut
    down to what a compact value can express, which is more than the
    quarter less its 32768th part. With [no_retargeting] the [nBits] are
    handed back unchanged. *)
Theorem CalculateNextWorkRequired_bounds (pindexLast : BlockIndex)
        (nFirstBlockTime : Z) (params : Params) :
  0 < nPowTargetTimespan params ->
  in_uint32 (nBits pindexLast) ->
  in_uint256 (GetActivePowLimit params (nHeight pindexLast + 1)) ->
  let new_bits := CalculateNextWorkRequired pindexLast nFirstBlockTime params in
  let new_target := target_of new_bits in
  let old_target := target_of (nBits pindexLast) in
  let pow_limit := GetActivePowLimit params (nHeight pindexLast + 1) in
  (fPowNoRetargeting params = true -> new_bits = nBits pindexLast)
  /\ (fPowNoRetargeting params = false ->
      new_target <= pow_limit
      /\ new_target <= old_target * 4
      /\ (nPowTargetTimespan params mod 4 = 0 ->
          old_target / 4 <= pow_limit ->
          round_compact (old_target / 4) <= new_target
          /\ old_target / 4 * 32767 <= new_target * 32768)).
Proof.
  intros HT [Hbits _] Hlimit new_bits new_target old_target pow_limit.
  split.
  - intros Hoff. subst new_bits. unfold CalculateNextWorkRequired.
    rewrite Hoff. reflexivity.
  - intros Hon.
    destruct (next_target_spec pindexLast nFirstBlockTime params
                Hon HT Hbits Hlimit) as [Hexact Hnew].
    fold new_bits new_target old_target pow_limit in Hnew, Hexact.
    set (exact := Z.min pow_limit _) in *.
    pose proof (target_of_range _ Hbits) as [Hold _]. fold old_target in Hold.
    pose proof (clamp_timespan_bounds (nPowTargetTimespan params)
                  (nTime pindexLast - nFirstBlockTime) HT) as Hclamp.
    destruct (scaled_target_bounds _ old_target _ HT Hold Hclamp)
      as [[_ Hupper] Hlower].
    pose proof (round_compact_le exact Hexact) as [_ Hle].
    rewrite Hnew.
    split; [subst exact; lia|]. split; [subst exact; lia|].
    intros Hmod Hroom. specialize (Hlower Hmod).
    assert (Hquarter : 0 <= old_target / 4 <= exact).
    { split; [apply Z.div_pos; lia|subst exact; lia]. }
    split.
    + apply round_compact_mono. exact Hquarter.
    + pose proof (round_compact_loss exact Hexact). lia.
Qed.

Lemma CalculateNextWorkRequired_bounds_witness :
  let new_target :=
    target_of (CalculateNextWorkRequired fast_block 1733616000
                                         emergency_params) in
  new_target <= 2 ^ 248 - 1
  /\ new_target <= target_of 0x1e00ffff * 4
  /\ round_compact (target_of 0x1e00ffff / 4) <= new_target
  /\ target_of 0x1e00ffff / 4 * 32767 <= new_target * 32768.
Proof.
  intros new_target.
  destruct (CalculateNextWorkRequired_bounds fast_block 1733616000
              emergency_params) as [_ Hon];
    [reflexivity|split; discriminate|split; [discriminate|reflexivity]|].
  destruct (Hon eq_refl) as (Hlimit & Hupper & Hlower).
  split; [exact Hlimit|]. split; [exact Hupper|].
  apply Hlower; [reflexivity|discriminate].
Defined.

(** C6, counterexample. Three retarget steps whose new target is below
    a quarter of the old one. The last block has [nBits] [0x1c7fffff]
    and the interval took a quarter of the timespan: the exact quarter
    needs 25 mantissa bits and is cut down to [0x1c1fffff]. The last
    SHA256d block sits at the SHA256d limit, exactly on schedule, and the
    next height is the first RandomX one with a lower limit: the new
    target is that limit. The timespan is 10, whose quarter is 2 by
    integer division: the target 4 goes down to 4 * 2 / 10 = 0. *)
Lemma CalculateNextWorkRequired_below_quarter :
  (CalculateNextWorkRequired fast_block_full_mantissa 1733616000
                             emergency_params = 0x1c1fffff
   /\ target_of 0x1c1fffff < target_of 0x1c7fffff / 4)
  /\ (CalculateNextWorkRequired last_sha256d_block 1733616000
                                limit_drop_params = 0x1d00ffff
      /\ target_of 0x1d00ffff < target_of 0x1f00ffff / 4)
  /\ (CalculateNextWorkRequired instant_block 1733616000 timespan_10_params
      = 0
      /\ target_of 0 < target_of 0x03000004 / 4).
Proof. repeat split; vm_compute; reflexivity. Qed.

End PowFacts.

Module TxVerifyFacts.
Import TxVerify Scenarios.

Section WithCap.
Variable MAX_MONEY : CAmount.
Hypothesis MAX_MONEY_positive : 0 < MAX_MONEY.

Lemma MoneyRange_spec (v : CAmount) :
  MoneyRange MAX_MONEY v = true <-> 0 <= v <= MAX_MONEY.
Proof. unfold MoneyRange. rewrite andb_true_iff, !Z.leb_le. tauto. Qed.

Lemma premature_spec (spend_height : Z) (coin : Coin) :
  premature spend_height coin = true
  <-> is_coinbase coin = true
      /\ spend_height - height coin < COINBASE_MATURITY.
Proof. unfold premature. rewrite andb_true_iff, Z.ltb_lt. tauto. Qed.

Lemma sum_values_cons (view : CCoinsView) (o : COutPoint)
      (rest : list COutPoint) :
  sum_values view (o :: rest) = coin_value view o + sum_values view rest.
Proof. reflexivity. Qed.

Lemma sum_values_nonneg (view : CCoinsView) (ins : list COutPoint) :
  all_in_range MAX_MONEY view ins -> 0 <= sum_values view ins.
Proof.
  induction 1 as [|o rest Ho _ IH]; [reflexivity|].
  rewrite sum_values_cons. unfold coin_value.
  destruct (view !! o) as [coin|] eqn:Hlook; cbn [from_option];
    [specialize (Ho coin eq_refl)|]; lia.
Qed.

(** The loop over the inputs: it runs through exactly when every
    prevout is in the view, no coinbase is spent early, every value is
    in range and the total stays within the cap; it then holds the
    total. *)
Lemma check_inputs_spec (view : CCoinsView) (spend_height : Z)
      (ins : list COutPoint) :
  forall sum_in total : CAmount,
    0 <= sum_in <= MAX_MONEY ->
    check_inputs MAX_MONEY view spend_height ins sum_in = inr total
    <-> all_exist view ins
        /\ all_mature view spend_height ins
        /\ all_in_range MAX_MONEY view ins
        /\ sum_in + sum_values view ins <= MAX_MONEY
        /\ total = sum_in + sum_values view ins.
Proof.
  unfold all_exist, all_mature, all_in_range.
  induction ins as [|o rest IH]; intros sum_in total Hsum.
  - cbn [check_inputs]. change (sum_values view []) with 0. split.
    + intros [= <-]. repeat split; auto using Forall_nil; lia.
    + intros (_ & _ & _ & _ & ->). f_equal. lia.
  - cbn [check_inputs]. rewrite sum_values_cons, !Forall_cons.
    unfold coin_value.
    destruct (view !! o) as [coin|] eqn:Hlook; cbn [from_option].
    2:{ split; [discriminate|]. intros ([[c Hc] _] & _). discriminate. }
    destruct (premature spend_height coin) eqn:Hpre.
    { apply premature_spec in Hpre as [Hcb Hearly].
      split; [discriminate|]. intros (_ & [Hm _] & _).
      specialize (Hm coin eq_refl Hcb). lia. }
    assert (Hmature : forall c, Some coin = Some c -> is_coinbase c = true ->
                        spend_height - height c >= COINBASE_MATURITY).
    { intros c [= <-] Hcb.
      destruct (Z_lt_ge_dec (spend_height - height coin) COINBASE_MATURITY);
        [|assumption].
      assert (premature spend_height coin = true)
        by (apply premature_spec; auto).
      congruence. }
    destruct (MoneyRange MAX_MONEY (value coin)) eqn:Hv; cbn [negb orb].
    2:{ split; [discriminate|]. intros (_ & _ & [Hr _] & _).
        specialize (Hr coin eq_refl).
        apply MoneyRange_spec in Hr. congruence. }
    apply MoneyRange_spec in Hv.
    destruct (MoneyRange MAX_MONEY (sum_in + value coin)) eqn:Hs;
      cbn [negb].
    2:{ split; [discriminate|]. intros (_ & _ & [_ Hrest] & Hcap & _).
        apply sum_values_nonneg in Hrest.
        assert (MoneyRange MAX_MONEY (sum_in + value coin) = true)
          by (apply MoneyRange_spec; lia).
        congruence. }
    apply MoneyRange_spec in Hs.
    rewrite (IH (sum_in + value coin) total Hs). split.
    + intros (He & Hm & Hr & Hcap & ->).
      split; [split; [eauto|exact He]|].
      split; [split; [exact Hmature|exact Hm]|].
      split; [split; [intros c [= <-]; exact Hv|exact Hr]|].
      split; lia.
    + intros ([_ He] & [_ Hm] & [_ Hr] & Hcap & ->).
      split; [exact He|]. split; [exact Hm|]. split; [exact Hr|].
      split; lia.
Qed.

(** C2, as the steps have it. [CheckTxInputs] returns a fee exactly
    when every prevout is in the view, every input value lies in
    [[0, MAX_MONEY]], the sum of the inputs lies in
    [[sum_out, MAX_MONEY]], the difference is at most [MAX_MONEY] and
    every coinbase input has [spend_height - height >= 100]; the fee is
    then the sum of the inputs minus the sum of the outputs. A coinbase
    at distance 100 passes the maturity test, one at distance 99 does
    not and no transaction spending it is accepted. *)
Theorem CheckTxInputs_spec (tx : CTransaction) (view : CCoinsView)
        (spend_height : Z) :
  (forall fee,
     CheckTxInputs MAX_MONEY tx view spend_height = inr fee
     <-> succeeds MAX_MONEY tx view spend_height
         /\ fee = sum_values view (vin tx) - GetValueOut tx)
  /\ (forall coin, is_coinbase coin = true ->
        spend_height - height coin = 100 ->
        premature spend_height coin = false)
  /\ (forall coin, is_coinbase coin = true ->
        spend_height - height coin = 99 ->
        premature spend_height coin = true)
  /\ (forall o coin, o ∈ vin tx -> view !! o = Some coin ->
        is_coinbase coin = true -> spend_height - height coin = 99 ->
        forall fee, CheckTxInputs MAX_MONEY tx view spend_height <> inr fee).
Proof.
  assert (Hiff : forall fee,
            CheckTxInputs MAX_MONEY tx view spend_height = inr fee
            <-> succeeds MAX_MONEY tx view spend_height
                /\ fee = sum_values view (vin tx) - GetValueOut tx).
  { intros fee. unfold CheckTxInputs, succeeds, spec_succeeds.
    pose proof (check_inputs_spec view spend_height (vin tx) 0) as Hloop.
    destruct (check_inputs MAX_MONEY view spend_height (vin tx) 0)
      as [err|sum_in] eqn:Hrun.
    - split; [discriminate|].
      intros (((He & Hsum & Hm) & Hr & Hle) & Hfee).
      assert (@inl TxValidationResult CAmount err
              = inr (0 + sum_values view (vin tx))) as Habs
        by (apply Hloop; [lia|]; repeat split; auto; lia).
      discriminate Habs.
    - destruct (proj1 (Hloop sum_in ltac:(lia)) eq_refl)
        as (He & Hm & Hr & Hcap & ->).
      rewrite Z.add_0_l in *.
      destruct (Z.ltb_spec (sum_values view (vin tx)) (GetValueOut tx)).
      { split; [discriminate|]. intros (((_ & Hsum & _) & _) & _). lia. }
      destruct (MoneyRange MAX_MONEY
                  (sum_values view (vin tx) - GetValueOut tx)) eqn:Hfee;
        cbn [negb].
      + apply MoneyRange_spec in Hfee. split.
        * intros [= <-]. repeat split; auto; lia.
        * intros (_ & ->). reflexivity.
      + split; [discriminate|]. intros (((_ & Hsum & _) & _ & Hle) & _).
        assert (MoneyRange MAX_MONEY
                  (sum_values view (vin tx) - GetValueOut tx) = true)
          by (apply MoneyRange_spec; lia).
        congruence. }
  split; [exact Hiff|]. split; [|split].
  - intros coin Hcb Hdist. apply not_true_iff_false.
    rewrite premature_spec. unfold COINBASE_MATURITY. lia.
  - intros coin Hcb Hdist. apply premature_spec.
    unfold COINBASE_MATURITY. split; [exact Hcb|lia].
  - intros o coin Hin Hlook Hcb Hdist fee Hok.
    apply Hiff in Hok as (((_ & _ & Hm) & _) & _).
    unfold all_mature in Hm. rewrite Forall_forall in Hm.
    specialize (Hm o Hin coin Hlook Hcb).
    unfold COINBASE_MATURITY in Hm. lia.
Qed.
End WithCap.

Lemma upstream_MAX_MONEY_positive : 0 < upstream_MAX_MONEY.
Proof. reflexivity. Qed.

(** The maturity scenario: the coinbase of height 100 spent at 200 gives
    the fee 0, and is not accepted at 199. *)
Lemma CheckTxInputs_spec_witness :
  CheckTxInputs upstream_MAX_MONEY spend_coinbase coinbase_view 200 = inr 0
  /\ forall fee,
       CheckTxInputs upstream_MAX_MONEY spend_coinbase coinbase_view 199
       <> inr fee.
Proof.
  split.
  - apply (proj1 (CheckTxInputs_spec upstream_MAX_MONEY
                    upstream_MAX_MONEY_positive spend_coinbase
                    coinbase_view 200)).
    split; [|reflexivity].
    split; [split; [|split]|split].
    + apply List.Forall_cons; [|apply List.Forall_nil].
      exists coinbase_at_100. reflexivity.
    + split; discriminate.
    + apply List.Forall_cons; [|apply List.Forall_nil].
      intros coin Hlook _.
      vm_compute in Hlook. injection Hlook as <-. discriminate.
    + apply List.Forall_cons; [|apply List.Forall_nil].
      intros coin Hlook.
      vm_compute in Hlook. injection Hlook as <-. split; discriminate.
    + discriminate.
  - apply (proj2 (proj2 (proj2
             (CheckTxInputs_spec upstream_MAX_MONEY
                upstream_MAX_MONEY_positive spend_coinbase
                coinbase_view 199))) (1, 0) coinbase_at_100).
    + apply list_elem_of_here.
    + reflexivity.
    + reflexivity.
    + reflexivity.
Defined.

(** C2, counterexample. Both prevouts are in the view, neither coin is a
    coinbase and the inputs sum to 2 coins, which covers the 2 coins of
    output and is below the cap: the condition of the design text holds.
    The check still fails, on the input of value -1 coin. *)
Lemma CheckTxInputs_rejects_negative_coin :
  spec_succeeds upstream_MAX_MONEY spend_both negative_coin_view 200
  /\ CheckTxInputs upstream_MAX_MONEY spend_both negative_coin_view 200
     = inl (TX_CONSENSUS "input-values-out-of-range").
Proof.
  split; [|reflexivity].
  split; [|split].
  - repeat (apply List.Forall_cons; [eexists; reflexivity|]).
    apply List.Forall_nil.
  - split; discriminate.
  - repeat (apply List.Forall_cons;
            [intros coin Hlook Hcb; vm_compute in Hlook;
             injection Hlook as <-; discriminate Hcb|]).
    apply List.Forall_nil.
Qed.

End TxVerifyFacts.

(** * Further properties of the code *)

Module ConsensusMore.
Import Consensus Scenarios.

Lemma GetPowAlgorithm_cases (p : Params) (H : Z) :
  (GetPowAlgorithm p H = ARGON2ID <-> IsArgon2EmergencyActive p H = true)
  /\ (GetPowAlgorithm p H = RANDOMX <-> IsRandomXActive p H = true)
  /\ (GetPowAlgorithm p H = SHA256D
      <-> IsRandomXActive p H = false /\ IsArgon2EmergencyActive p H = false).
Proof.
  unfold GetPowAlgorithm, IsRandomXActive.
  destruct (IsArgon2EmergencyActive p H); cbn [negb];
    [rewrite andb_false_r|rewrite andb_true_r];
    [|destruct (H >=? nRandomXForkHeight p)];
    repeat split; try congruence; try tauto; intros [? ?]; congruence.
Qed.

(** The selector and the two activity predicates tell the same story:
    ARGON2ID exactly when the emergency is active, RANDOMX exactly when
    RandomX is, SHA256D exactly when neither is; the two predicates never
    hold together. *)
Theorem selector_agrees_with_predicates (p : Params) (H : Z) :
  (GetPowAlgorithm p H = ARGON2ID <-> IsArgon2EmergencyActive p H = true)
  /\ (GetPowAlgorithm p H = RANDOMX <-> IsRandomXActive p H = true)
  /\ (GetPowAlgorithm p H = SHA256D
      <-> IsRandomXActive p H = false /\ IsArgon2EmergencyActive p H = false)
  /\ ~ (IsRandomXActive p H = true /\ IsArgon2EmergencyActive p H = true).
Proof.
  destruct (GetPowAlgorithm_cases p H) as (Ha & Hr & Hs).
  repeat split; try tauto.
  intros [Hrx Hem]. apply Ha in Hem. apply Hr in Hrx. congruence.
Qed.

(** Along the chain the algorithm only moves forward: once ARGON2ID is
    selected it stays selected at every later height, and after RANDOMX
    the selector never returns to SHA256D. *)
Theorem algorithm_never_goes_back (p : Params) (H H' : Z) :
  H <= H' ->
  (GetPowAlgorithm p H = ARGON2ID -> GetPowAlgorithm p H' = ARGON2ID)
  /\ (GetPowAlgorithm p H = RANDOMX -> GetPowAlgorithm p H' <> SHA256D)
  /\ (GetPowAlgorithm p H' = SHA256D -> GetPowAlgorithm p H = SHA256D).
Proof.
  intros Hle.
  destruct (GetPowAlgorithm_cases p H) as (Ha & Hr & Hs).
  destruct (GetPowAlgorithm_cases p H') as (Ha' & Hr' & Hs').
  assert (Hup : IsArgon2EmergencyActive p H = true ->
                IsArgon2EmergencyActive p H' = true).
  { rewrite !ConsensusFacts.IsArgon2EmergencyActive_spec. lia. }
  assert (Hfork : nRandomXForkHeight p <= H -> nRandomXForkHeight p <= H')
    by lia.
  split; [|split].
  - intros Halg. apply Ha', Hup, Ha, Halg.
  - intros Halg Hback. apply Hr in Halg. apply Hs' in Hback as [Hrx Hem].
    apply ConsensusFacts.IsRandomXActive_spec in Halg as [Hf _].
    assert (IsRandomXActive p H' = true)
      by (apply ConsensusFacts.IsRandomXActive_spec; auto).
    congruence.
  - intros Hsha. apply Hs' in Hsha as [Hrx Hem]. apply Hs.
    split.
    + apply not_true_iff_false. intros Hact.
      apply ConsensusFacts.IsRandomXActive_spec in Hact as [Hf _].
      assert (IsRandomXActive p H' = true)
        by (apply ConsensusFacts.IsRandomXActive_spec; auto).
      congruence.
    + apply not_true_iff_false. intros Hact. apply Hup in Hact. congruence.
Qed.

Lemma algorithm_never_goes_back_witness :
  GetPowAlgorithm emergency_params 5000 = ARGON2ID.
Proof.
  apply (algorithm_never_goes_back emergency_params 100 5000);
    [lia|reflexivity].
Defined.

Lemma GetActivePowLimit_null_iff_witness :
  IsNull (GetActivePowLimit only_sha256d_limit_params 100) = true
  <-> GetPowAlgorithm only_sha256d_limit_params 100 = ARGON2ID
      /\ IsNull (powLimitArgon2 only_sha256d_limit_params) = true
      /\ IsNull (powLimitRandomX only_sha256d_limit_params) = true.
Proof.
  apply (ConsensusFacts.GetActivePowLimit_null_iff only_sha256d_limit_params 100).
  reflexivity.
Defined.

(** *** The key block height *)

Lemma key_height_value (p : Params) (H : Z) :
  in_int H -> in_int (nRandomXKeyBlockInterval p) ->
  0 <= H -> 0 < nRandomXKeyBlockInterval p ->
  GetRandomXKeyBlockHeight p H
  = Some (Z.max 0 (H / nRandomXKeyBlockInterval p * nRandomXKeyBlockInterval p
                   - nRandomXKeyBlockInterval p)).
Proof.
  set (I := nRandomXKeyBlockInterval p). intros HH HI H0 I0.
  assert (Hq : 0 <= H / I) by (apply Z.div_pos; lia).
  assert (Hle : H / I * I <= H) by (rewrite Z.mul_comm; apply Z.mul_div_le; lia).
  assert (Hge : 0 <= H / I * I) by nia.
  unfold in_int, int_min, int_max in HH, HI.
  unfold GetRandomXKeyBlockHeight. fold I.
  rewrite int_div_nonneg by lia. cbn [mbind option_bind].
  rewrite (wrap_int_id (H / I * I)) by (unfold in_int, int_min, int_max; lia).
  rewrite wrap_int_id by (unfold in_int, int_min, int_max; lia).
  f_equal. destruct (Z.geb_spec (H / I * I - I) 0); lia.
Qed.

Lemma div_succ_inside (H I : Z) :
  0 <= H -> 0 < I -> (H + 1) mod I <> 0 -> (H + 1) / I = H / I.
Proof.
  intros H0 I0 Hmod.
  pose proof (Z.div_mod (H + 1) I ltac:(lia)) as Hdm.
  pose proof (Z.mod_pos_bound (H + 1) I I0) as Hb.
  apply (Z.div_unique H I ((H + 1) / I) ((H + 1) mod I - 1)); lia.
Qed.

Lemma div_succ_boundary (H I : Z) :
  0 <= H -> 0 < I -> (H + 1) mod I = 0 -> (H + 1) / I = H / I + 1.
Proof.
  intros H0 I0 Hmod.
  pose proof (Z.div_mod (H + 1) I ltac:(lia)) as Hdm.
  assert (Hq : H / I = (H + 1) / I - 1).
  { symmetry. apply (Z.div_unique H I ((H + 1) / I - 1) (I - 1)); lia. }
  lia.
Qed.

(** The RandomX key block moves only at multiples of the key interval: from
    a height to the next the key height is unchanged unless the next height
    is a multiple of the interval, and then (from the second multiple on)
    it advances by exactly one interval. *)
Theorem key_height_changes_at_interval_boundaries (p : Params) (H : Z) :
  in_int H -> in_int (H + 1) -> in_int (nRandomXKeyBlockInterval p) ->
  0 <= H -> 0 < nRandomXKeyBlockInterval p ->
  ((H + 1) mod nRandomXKeyBlockInterval p <> 0 ->
   GetRandomXKeyBlockHeight p (H + 1) = GetRandomXKeyBlockHeight p H)
  /\ ((H + 1) mod nRandomXKeyBlockInterval p = 0 ->
      2 * nRandomXKeyBlockInterval p <= H + 1 ->
      exists k, GetRandomXKeyBlockHeight p H = Some k
                /\ GetRandomXKeyBlockHeight p (H + 1)
                   = Some (k + nRandomXKeyBlockInterval p)).
Proof.
  set (I := nRandomXKeyBlockInterval p). intros HH HH1 HI H0 I0.
  rewrite !key_height_value by (assumption || lia). fold I.
  split.
  - intros Hmod. rewrite div_succ_inside by assumption. reflexivity.
  - intros Hmod Hbig. rewrite div_succ_boundary by assumption.
    eexists. split; [reflexivity|]. f_equal.
    assert (Hexact : H + 1 = I * ((H + 1) / I))
      by (apply Z_div_exact_full_2; lia).
    rewrite div_succ_boundary in Hexact by assumption. nia.
Qed.

Lemma key_height_changes_at_interval_boundaries_witness :
  GetRandomXKeyBlockHeight default_Params 70 = GetRandomXKeyBlockHeight default_Params 69
  /\ exists k, GetRandomXKeyBlockHeight default_Params 95 = Some k
               /\ GetRandomXKeyBlockHeight default_Params 96 = Some (k + 32).
Proof.
  split.
  - apply (key_height_changes_at_interval_boundaries default_Params 69);
      unfold in_int, int_min, int_max; simpl; try lia. discriminate.
  - apply (key_height_changes_at_interval_boundaries default_Params 95);
      unfold in_int, int_min, int_max; simpl; try lia. reflexivity.
Defined.

(** The key block lies at least one and less than two intervals behind:
    from the first interval boundary on, [H - 2 * interval < key <= H -
    interval]; in particular the key height is below the height. *)
Theorem key_height_lag (p : Params) (H k : Z) :
  in_int H -> in_int (nRandomXKeyBlockInterval p) ->
  0 < nRandomXKeyBlockInterval p -> nRandomXKeyBlockInterval p <= H ->
  GetRandomXKeyBlockHeight p H = Some k ->
  H - 2 * nRandomXKeyBlockInterval p < k <= H - nRandomXKeyBlockInterval p
  /\ k < H.
Proof.
  set (I := nRandomXKeyBlockInterval p). intros HH HI I0 Hbig Hk.
  rewrite key_height_value in Hk by (assumption || lia). fold I in Hk.
  injection Hk as <-.
  pose proof (Z.div_mod H I ltac:(lia)) as Hdm.
  pose proof (Z.mod_pos_bound H I I0) as Hb.
  assert (1 <= H / I) by (apply Z.div_le_lower_bound; lia).
  nia.
Qed.

Lemma key_height_lag_witness :
  10000020 - 2 * 32 < 9999968 <= 10000020 - 32 /\ 9999968 < 10000020.
Proof.
  apply (key_height_lag default_Params 10000020 9999968);
    unfold in_int, int_min, int_max; simpl; try lia. reflexivity.
Defined.

(** A negative height is clamped to the genesis block: the key height is
    0 (as long as subtracting the interval stays within [int]). *)
Theorem key_height_of_negative_height (p : Params) (H : Z) :
  in_int H -> in_int (nRandomXKeyBlockInterval p) ->
  0 < nRandomXKeyBlockInterval p ->
  H < 0 -> int_min + nRandomXKeyBlockInterval p <= H ->
  GetRandomXKeyBlockHeight p H = Some 0.
Proof.
  set (I := nRandomXKeyBlockInterval p). intros HH HI I0 Hneg Hroom.
  unfold in_int, int_min, int_max in *.
  assert (Hquot : H ÷ I = - (- H / I)).
  { rewrite <- (Z.opp_involutive H) at 1.
    rewrite Z.quot_opp_l by lia. rewrite Z.quot_div_nonneg by lia.
    reflexivity. }
  assert (Hq : 0 <= - H / I) by (apply Z.div_pos; lia).
  assert (Hle : - H / I * I <= - H)
    by (rewrite Z.mul_comm; apply Z.mul_div_le; lia).
  unfold GetRandomXKeyBlockHeight, int_div. fold I.
  destruct (Z.eqb_spec I 0); [lia|].
  destruct (Z.eqb_spec I (-1)); [lia|]. rewrite andb_false_r.
  cbn [mbind option_bind]. rewrite Hquot.
  rewrite (wrap_int_id (- (- H / I) * I))
    by (unfold in_int, int_min, int_max; nia).
  rewrite wrap_int_id by (unfold in_int, int_min, int_max; nia).
  f_equal. destruct (Z.geb_spec (- (- H / I) * I - I) 0); nia.
Qed.

Lemma key_height_of_negative_height_witness :
  GetRandomXKeyBlockHeight default_Params (-1) = Some 0.
Proof.
  apply (key_height_of_negative_height default_Params (-1));
    unfold in_int, int_min, int_max; simpl; lia.
Defined.

End ConsensusMore.

Module DeploymentFacts.
Import Consensus.

Lemma BuriedDeployment_value_range (dep : BuriedDeployment) :
  int16_min <= BuriedDeployment_value dep <= int16_min + 4.
Proof. destruct dep; unfold BuriedDeployment_value, int16_min; lia. Qed.

(** Among the values an [int16_t] can hold, [ValidDeployment] accepts
    exactly the five buried deployments; among the [uint16_t] ones the
    other overload accepts exactly the deployments below
    [MAX_VERSION_BITS_DEPLOYMENTS]. Buried values are negative, so no value
    names both a buried and a version-bits deployment; and
    [DeploymentHeight] answers [INT_MAX] for every value that is not a
    buried deployment. *)
Theorem deployments_are_told_apart :
  (forall v, in_int16 v ->
     ValidDeployment_buried v = true
     <-> exists dep, v = BuriedDeployment_value dep)
  /\ (forall v, in_uint16 v ->
        ValidDeployment_pos v = true
        <-> exists dep, dep <> MAX_VERSION_BITS_DEPLOYMENTS
                        /\ v = DeploymentPos_value dep)
  /\ (forall b d, BuriedDeployment_value b <> DeploymentPos_value d)
  /\ (forall heights v, in_int16 v ->
        ValidDeployment_buried v = false ->
        DeploymentHeight heights v = int_max).
Proof.
  split; [|split; [|split]].
  - intros v Hv. unfold ValidDeployment_buried, in_int16 in *.
    rewrite Z.leb_le. cbn [BuriedDeployment_value]. unfold int16_min. split.
    + intros Hle.
      assert (Hcases : v = -2 ^ 15 \/ v = -2 ^ 15 + 1 \/ v = -2 ^ 15 + 2
                       \/ v = -2 ^ 15 + 3 \/ v = -2 ^ 15 + 4) by lia.
      destruct Hcases as [->|[->|[->|[->| ->]]]];
        [exists DEPLOYMENT_HEIGHTINCB|exists DEPLOYMENT_CLTV
        |exists DEPLOYMENT_DERSIG|exists DEPLOYMENT_CSV
        |exists DEPLOYMENT_SEGWIT]; reflexivity.
    + intros [dep ->].
      pose proof (BuriedDeployment_value_range dep). unfold int16_min in *. lia.
  - intros v Hv. unfold ValidDeployment_pos, in_uint16 in *.
    rewrite Z.ltb_lt. cbn [DeploymentPos_value]. split.
    + intros Hlt. assert (Hcases : v = 0 \/ v = 1) by lia.
      destruct Hcases as [->| ->];
        [exists DEPLOYMENT_TESTDUMMY|exists DEPLOYMENT_TAPROOT];
        split; (discriminate || reflexivity).
    + intros [dep [Hnot ->]]. destruct dep; cbn; try lia. congruence.
  - intros b d. pose proof (BuriedDeployment_value_range b).
    unfold int16_min in *. destruct d; cbn; lia.
  - intros heights v Hv Hinvalid. unfold ValidDeployment_buried in Hinvalid.
    apply Z.leb_gt in Hinvalid. cbn [BuriedDeployment_value] in Hinvalid.
    unfold DeploymentHeight. cbn [BuriedDeployment_value].
    unfold int16_min in *.
    repeat match goal with
           | |- context [?a =? ?b] => destruct (Z.eqb_spec a b); [lia|]
           end.
    reflexivity.
Qed.

Lemma deployments_are_told_apart_witness :
  ValidDeployment_buried (-32765) = true
  /\ DeploymentHeight (mkBuriedHeights 1 2 3 4 5) 7 = int_max.
Proof.
  destruct deployments_are_told_apart as (Hburied & _ & _ & Hother).
  split.
  - apply Hburied; [unfold in_int16; lia|]. exists DEPLOYMENT_CSV. reflexivity.
  - apply Hother; [unfold in_int16; lia|reflexivity].
Defined.

End DeploymentFacts.

Module Argon2More.
Import Consensus Block Argon2 Scenarios.

Lemma new_Argon2Context_Ok (pf : Platform) (m t par : Z) (ctx : Argon2Context) :
  new_Argon2Context pf m t par = Ok ctx ->
  ctx = mkContext true m t par /\ 8 <= m /\ 1 <= t /\ 1 <= par.
Proof.
  unfold new_Argon2Context. intros Hnew.
  destruct (Z.ltb_spec m 8); [discriminate|].
  destruct (Z.ltb_spec t 1); [discriminate|].
  destruct (Z.ltb_spec par 1); [discriminate|].
  destruct (USE_LIBSODIUM pf && (sodium_init pf <? 0)); [discriminate|].
  cbn in Hnew. injection Hnew as <-. auto.
Qed.

Lemma CalculateHash_fallback_Ok (pf : Platform) (m t par : Z)
      (ctx : Argon2Context) (data : list byte) (salt : uint256) :
  new_Argon2Context pf m t par = Ok ctx ->
  USE_LIBSODIUM pf = false ->
  Z.of_nat (length data) <= 4194304 ->
  exists digest, CalculateHash pf ctx data salt = Ok digest.
Proof.
  intros Hnew Hfallback Hshort.
  apply new_Argon2Context_Ok in Hnew as (-> & _).
  unfold CalculateHash. cbn [m_initialized negb check mbind result_bind].
  change ARGON2_MAX_INPUT_SIZE with 4194304.
  destruct (Z.gtb_spec (Z.of_nat (length data)) 4194304); [lia|].
  cbn [check mbind result_bind]. rewrite Hfallback. eexists. reflexivity.
Qed.

(** A context that came out of the constructor is never reported as
    uninitialised by [CalculateHash]; the call throws "input exceeds
    maximum size" exactly when the input is longer than 4 MiB (4194304
    bytes), and on a build without libsodium it returns a digest for every
    input up to that length, the empty one included. *)
Theorem CalculateHash_size_cap (pf : Platform) (m t par : Z)
        (ctx : Argon2Context) (data : list byte) (salt : uint256) :
  new_Argon2Context pf m t par = Ok ctx ->
  CalculateHash pf ctx data salt
  <> Throw (runtime_error "Argon2 context not initialized")
  /\ (CalculateHash pf ctx data salt
      = Throw (runtime_error "Argon2 input exceeds maximum size")
      <-> Z.of_nat (length data) > 4194304)
  /\ (USE_LIBSODIUM pf = false ->
      Z.of_nat (length data) <= 4194304 ->
      exists digest, CalculateHash pf ctx data salt = Ok digest).
Proof.
  intros Hnew. apply new_Argon2Context_Ok in Hnew as (-> & _).
  unfold CalculateHash. cbn [m_initialized negb check mbind result_bind].
  change ARGON2_MAX_INPUT_SIZE with 4194304.
  destruct (Z.gtb_spec (Z.of_nat (length data)) 4194304) as [Hlong|Hshort];
    cbn [check mbind result_bind].
  - split; [discriminate|].
    split; [split; [intros _; lia|reflexivity]|]. intros _ Hle. lia.
  - destruct (USE_LIBSODIUM pf).
    + destruct (crypto_pwhash pf _ _ _ _ _ _);
        (split; [discriminate|]; split; [|discriminate]);
        (split; [discriminate|lia]).
    + split; [discriminate|]. split; [split; [discriminate|lia]|].
      intros _ _. eexists. reflexivity.
Qed.

Lemma CalculateHash_size_cap_witness :
  exists digest,
    CalculateHash fallback_build ctx_64MB [] uint256_ONE = Ok digest.
Proof.
  apply (proj2 (proj2 (CalculateHash_size_cap fallback_build (2 ^ 16) 1 1
                         ctx_64MB [] uint256_ONE eq_refl)));
    [reflexivity|cbn; lia].
Defined.

(** *** The global context *)

(** The first successful initialisation wins: afterwards the global
    context is set, and any further [InitArgon2Context], whatever its
    arguments (also ones the constructor would reject), returns normally
    and leaves that context as it is. A failed initialisation leaves the
    pointer null. *)
Theorem InitArgon2Context_first_wins (pf : Platform) (m t par : Z)
        (g g1 : GlobalContext) :
  (InitArgon2Context pf m t par g = (Ok tt, g1) ->
   exists ctx,
     g1 = Some ctx
     /\ (g = None -> ctx = mkContext true m t par)
     /\ forall m' t' par',
          InitArgon2Context pf m' t' par' g1 = (Ok tt, g1))
  /\ (forall e, InitArgon2Context pf m t par g = (Throw e, g1) ->
        g = None /\ g1 = None).
Proof.
  unfold InitArgon2Context. split.
  - destruct g as [ctx0|].
    + intros [= <-]. exists ctx0. split; [reflexivity|].
      split; [discriminate|reflexivity].
    + destruct (new_Argon2Context pf m t par) as [ctx|e] eqn:Hnew;
        [|discriminate].
      intros [= <-]. exists ctx. split; [reflexivity|].
      split; [|reflexivity].
      intros _. apply new_Argon2Context_Ok in Hnew. tauto.
  - intros e. destruct g as [ctx0|]; [discriminate|].
    destruct (new_Argon2Context pf m t par); [discriminate|].
    intros [= _ <-]. auto.
Qed.

Lemma InitArgon2Context_first_wins_witness :
  InitArgon2Context fallback_build 0 0 0 (Some ctx_64MB)
  = (Ok tt, Some ctx_64MB).
Proof.
  destruct (proj1 (InitArgon2Context_first_wins fallback_build (2 ^ 16) 1 1
                     None (Some ctx_64MB)) eq_refl)
    as (ctx & Hctx & _ & Hagain).
  apply Hagain.
Defined.

(** [CalculateArgon2Hash] never dereferences a null global context. The
    Argon2 settings of the consensus parameters matter only while the
    global context is null: once it is set, every call hashes through it
    and ignores the settings it is given. A call whose settings the
    constructor rejects throws and leaves the context null. *)
Theorem CalculateArgon2Hash_uses_first_context (pf : Platform)
        (header : CBlockHeader) (params : Params) :
  (forall g, is_Some (CalculateArgon2Hash pf header params g))
  /\ (forall ctx,
        CalculateArgon2Hash pf header params (Some ctx)
        = Some (CalculateBlockHash pf ctx header, Some ctx))
  /\ (forall r ctx,
        CalculateArgon2Hash pf header params None = Some (r, Some ctx) ->
        ctx = mkContext true (nArgon2MemoryCost params)
                        (nArgon2TimeCost params) (nArgon2Parallelism params)
        /\ r = CalculateBlockHash pf ctx header
        /\ forall header' params',
             CalculateArgon2Hash pf header' params' (Some ctx)
             = Some (CalculateBlockHash pf ctx header', Some ctx))
  /\ (nArgon2MemoryCost params < 8 ->
      exists what,
        CalculateArgon2Hash pf header params None
        = Some (Throw (invalid_argument what), None)).
Proof.
  split; [|split; [|split]].
  - intros [ctx|]; unfold CalculateArgon2Hash, InitArgon2Context.
    + eexists. reflexivity.
    + destruct (new_Argon2Context pf _ _ _); eexists; reflexivity.
  - reflexivity.
  - intros r ctx. unfold CalculateArgon2Hash, InitArgon2Context.
    destruct (new_Argon2Context pf _ _ _) as [ctx'|e] eqn:Hnew;
      [|discriminate].
    intros [= <- <-]. apply new_Argon2Context_Ok in Hnew as [-> _].
    repeat split.
  - intros Hsmall. unfold CalculateArgon2Hash, InitArgon2Context.
    destruct (Argon2Facts.new_Argon2Context_out_of_range pf
                (nArgon2MemoryCost params) (nArgon2TimeCost params)
                (nArgon2Parallelism params) (or_introl Hsmall))
      as [what ->].
    exists what. reflexivity.
Qed.

Lemma CalculateArgon2Hash_uses_first_context_witness :
  exists what,
    CalculateArgon2Hash fallback_build (mkHeader 1 1 0 1234567890 0x1d00ffff 0)
      (mkParams 0 false false 0 0 1 32 0 (-1) 0 1 1 0) None
    = Some (Throw (invalid_argument what), None).
Proof.
  apply (CalculateArgon2Hash_uses_first_context fallback_build). cbn. lia.
Defined.

End Argon2More.

Module BlockFacts.
Import Block Argon2 Scenarios.

Lemma le_split_4_int_inj (v1 v2 : Z) :
  in_int v1 -> in_int v2 -> le_split 4 v1 = le_split 4 v2 -> v1 = v2.
Proof.
  unfold in_int, int_min, int_max. intros H1 H2 Heq.
  apply (f_equal le_combine) in Heq. rewrite !le_combine_split in Heq.
  change (Z.of_nat 4 * 8) with 32 in Heq.
  pose proof (Z.div_mod v1 (2 ^ 32) ltac:(lia)) as D1.
  pose proof (Z.div_mod v2 (2 ^ 32) ltac:(lia)) as D2.
  rewrite Heq in D1. lia.
Qed.

Lemma length_Serialize (h : CBlockHeader) : length (Serialize h) = 80%nat.
Proof.
  unfold Serialize, uint256_bytes, uint32_bytes.
  rewrite !length_app, !length_le_split. reflexivity.
Qed.

Lemma Serialize_inj (h h' : CBlockHeader) :
  header_in_range h -> header_in_range h' ->
  Serialize h = Serialize h' -> h = h'.
Proof.
  intros (Hv & Hp & Hm & Ht & Hb & Hn) (Hv' & Hp' & Hm' & Ht' & Hb' & Hn').
  unfold Serialize. intros Heq.
  apply app_inj_1 in Heq as [Ev Heq]; [|rewrite !length_le_split; reflexivity].
  apply app_inj_1 in Heq as [Ep Heq];
    [|unfold uint256_bytes; rewrite !length_le_split; reflexivity].
  apply app_inj_1 in Heq as [Em Heq];
    [|unfold uint256_bytes; rewrite !length_le_split; reflexivity].
  apply app_inj_1 in Heq as [Et Heq];
    [|unfold uint32_bytes; rewrite !length_le_split; reflexivity].
  apply app_inj_1 in Heq as [Eb En];
    [|unfold uint32_bytes; rewrite !length_le_split; reflexivity].
  apply le_split_4_int_inj in Ev; [|assumption..].
  apply Argon2Facts.uint256_bytes_inj in Ep; [|assumption..].
  apply Argon2Facts.uint256_bytes_inj in Em; [|assumption..].
  apply Argon2Facts.uint32_bytes_inj in Et; [|assumption..].
  apply Argon2Facts.uint32_bytes_inj in Eb; [|assumption..].
  apply Argon2Facts.uint32_bytes_inj in En; [|assumption..].
  destruct h, h'; cbn in *; congruence.
Qed.

(** The serialised header is 80 bytes long, begins with the four
    little-endian bytes of the version and ends with the four of the
    nonce; and it determines the header: two headers whose fields are in
    range and whose serialisations agree are equal. *)
Theorem Serialize_layout (h : CBlockHeader) :
  length (Serialize h) = 80%nat
  /\ take 4 (Serialize h) = le_split 4 (nVersion h)
  /\ drop 76 (Serialize h) = le_split 4 (nNonce h)
  /\ forall h', header_in_range h -> header_in_range h' ->
       Serialize h = Serialize h' -> h = h'.
Proof.
  split; [apply length_Serialize|]. split; [|split].
  - unfold Serialize. apply take_app_length'. rewrite length_le_split.
    reflexivity.
  - unfold Serialize, uint256_bytes, uint32_bytes. rewrite !app_assoc.
    apply drop_app_length'. rewrite !length_app, !length_le_split.
    reflexivity.
  - intros h'. apply Serialize_inj.
Qed.

Lemma Serialize_layout_witness :
  mkHeader 0x12345678 0 0 0xAABBCCDD 0x1e00ffff 0x11223344
  = mkHeader 0x12345678 0 0 0xAABBCCDD 0x1e00ffff 0x11223344.
Proof.
  apply (proj2 (proj2 (proj2 (Serialize_layout
           (mkHeader 0x12345678 0 0 0xAABBCCDD 0x1e00ffff 0x11223344)))));
    try reflexivity;
    unfold header_in_range, in_int, int_min, int_max, in_uint256, in_uint32,
      uint32_max; cbn; lia.
Defined.

(** The bytes of the test [block_header_field_order]: version 0x12345678
    gives 78 56 34 12 in front, nonce 0x11223344 gives 44 33 22 11 at the
    end. *)
Example Serialize_field_order :
  let bytes :=
    Serialize (mkHeader 0x12345678 0 0 0xAABBCCDD 0x1e00ffff 0x11223344) in
  byte.unsigned <$> take 4 bytes = [0x78; 0x56; 0x34; 0x12]
  /\ byte.unsigned <$> drop 76 bytes = [0x44; 0x33; 0x22; 0x11].
Proof. split; vm_compute; reflexivity. Qed.

(** The block hash of a context that came out of the constructor, on a
    build without libsodium, is always a digest (80 bytes are far below the
    size cap); and for two different headers with fields in range the
    bytes fed to the hasher differ, whichever field it is that differs. *)
Theorem CalculateBlockHash_covers_the_header (pf : Platform) (m t par : Z)
        (ctx : Argon2Context) (h h' : CBlockHeader) :
  new_Argon2Context pf m t par = Ok ctx ->
  USE_LIBSODIUM pf = false ->
  in_uint32 m -> in_uint32 t ->
  header_in_range h -> header_in_range h' ->
  (exists digest, CalculateBlockHash pf ctx h = Ok digest)
  /\ (h <> h' ->
      fallback_preimage ctx (Serialize h) (hashPrevBlock h)
      <> fallback_preimage ctx (Serialize h') (hashPrevBlock h')).
Proof.
  intros Hnew Hfallback Hm Ht Hh Hh'. split.
  - unfold CalculateBlockHash.
    apply (Argon2More.CalculateHash_fallback_Ok pf m t par ctx _ _ Hnew);
      [assumption|]. rewrite length_Serialize. lia.
  - intros Hdiff Hpre. apply Hdiff.
    apply Argon2More.new_Argon2Context_Ok in Hnew as [-> _].
    apply Argon2Facts.fallback_preimage_inj in Hpre as (Hser & _);
      [|apply Hh|apply Hh'|assumption..].
    apply Serialize_inj; assumption.
Qed.

Lemma CalculateBlockHash_covers_the_header_witness :
  exists digest,
    CalculateBlockHash fallback_build ctx_64MB
      (mkHeader 1 1 0 1234567890 0x1d00ffff 0) = Ok digest.
Proof.
  apply (CalculateBlockHash_covers_the_header fallback_build (2 ^ 16) 1 1
           ctx_64MB (mkHeader 1 1 0 1234567890 0x1d00ffff 0)
           (mkHeader 1 0 0 1234567890 0x1d00ffff 0));
    try reflexivity;
    unfold header_in_range, in_int, int_min, int_max, in_uint256, in_uint32,
      uint32_max; cbn; lia.
Defined.

End BlockFacts.

Module PoolMore.
Import RandomXPool Scenarios.

(** *** The two searches *)

Lemma find_free_with_key_Some (key : uint256) (es : list PoolEntry) :
  forall i0 i : nat,
    find_free_with_key key es i0 = Some i ->
    exists e, (i0 <= i)%nat /\ es !! (i - i0)%nat = Some e
              /\ in_use e = false /\ key_hash e = key.
Proof.
  induction es as [|a es IH]; intros i0 i; cbn [find_free_with_key];
    [discriminate|].
  unfold is_free.
  destruct (negb (in_use a) && (key_hash a =? key)) eqn:Hhit.
  - intros [= <-]. exists a. rewrite Nat.sub_diag.
    apply andb_true_iff in Hhit as [Hfree Hkey].
    apply negb_true_iff in Hfree. apply Z.eqb_eq in Hkey. auto.
  - intros Hrest. destruct (IH _ _ Hrest) as (e & Hle & Hlook & Hfree & Hkey).
    exists e. split; [lia|]. split; [|auto].
    replace (i - i0)%nat with (S (i - S i0)) by lia. exact Hlook.
Qed.

Lemma find_free_with_key_None (key : uint256) (es : list PoolEntry) (i0 : nat) :
  find_free_with_key key es i0 = None <-> ~ has_free_with_key key es.
Proof.
  unfold has_free_with_key. revert i0.
  induction es as [|a es IH]; intros i0; cbn [find_free_with_key].
  - rewrite Exists_nil. tauto.
  - rewrite Exists_cons. unfold is_free.
    destruct (negb (in_use a) && (key_hash a =? key)) eqn:Hhit.
    + apply andb_true_iff in Hhit as [Hfree Hkey].
      apply negb_true_iff in Hfree. apply Z.eqb_eq in Hkey.
      split; [discriminate|]. intros Hno. exfalso. apply Hno. auto.
    + rewrite IH. apply andb_false_iff in Hhit.
      split; [|tauto]. intros Hno [[Hfree Hkey]|Hin]; [|tauto].
      destruct Hhit as [Hbusy|Hother].
      * apply negb_false_iff in Hbusy. congruence.
      * apply Z.eqb_neq in Hother. congruence.
Qed.

(** The scan keeps the free entry used longest ago, the first one when
    several are equally old. *)
Lemma find_lru_free_spec (es : list PoolEntry) :
  forall (i0 : nat) (best : option (nat * Z)),
    match find_lru_free es i0 best with
    | None => best = None /\ all_in_use es
    | Some i =>
        (exists t, best = Some (i, t)
                   /\ Forall (fun e => in_use e = false -> t <= last_used e) es)
        \/ (exists e, (i0 <= i)%nat /\ es !! (i - i0)%nat = Some e
                      /\ in_use e = false
                      /\ (forall j t, best = Some (j, t) -> last_used e < t)
                      /\ Forall (fun e' => in_use e' = false ->
                                   last_used e <= last_used e') es)
    end.
Proof.
  unfold all_in_use.
  induction es as [|a es IH]; intros i0 best; cbn [find_lru_free].
  - destruct best as [[j t]|]; cbn; [left; exists t|]; auto using Forall_nil.
  - unfold is_free. destruct (in_use a) eqn:Ha; cbn [negb].
    + specialize (IH (S i0) best).
      destruct (find_lru_free es (S i0) best) as [i|].
      * destruct IH as [(t & Hb & Hall)|(e & Hle & Hlook & Hfree & Hlt & Hall)].
        -- left. exists t. split; [exact Hb|].
           apply List.Forall_cons; [congruence|exact Hall].
        -- right. exists e. split; [lia|]. split.
           { replace (i - i0)%nat with (S (i - S i0)) by lia. exact Hlook. }
           split; [exact Hfree|]. split; [exact Hlt|].
           apply List.Forall_cons; [congruence|exact Hall].
      * destruct IH as [Hb Hall]. split; [exact Hb|].
        apply List.Forall_cons; assumption.
    + set (best' := match best with
                    | Some (_, t) =>
                        if last_used a <? t then Some (i0, last_used a) else best
                    | None => Some (i0, last_used a)
                    end).
      specialize (IH (S i0) best').
      destruct (find_lru_free es (S i0) best') as [i|].
      2:{ destruct IH as [Hb _]. subst best'.
          destruct best as [[j t]|]; [|discriminate].
          destruct (last_used a <? t); discriminate. }
      destruct best as [[j t]|]; subst best';
        [destruct (Z.ltb_spec (last_used a) t)|].
      * destruct IH as [(t' & Hb & Hall)|(e & Hle & Hlook & Hfree & Hlt & Hall)].
        -- injection Hb as <- <-. right. exists a. rewrite Nat.sub_diag.
           split; [lia|]. split; [reflexivity|]. split; [exact Ha|].
           split; [intros j' t'' [= _ <-]; lia|].
           apply List.Forall_cons; [lia|exact Hall].
        -- right. exists e. split; [lia|]. split.
           { replace (i - i0)%nat with (S (i - S i0)) by lia. exact Hlook. }
           split; [exact Hfree|].
           pose proof (Hlt _ _ eq_refl) as Hnewer.
           split; [intros j' t'' [= _ <-]; lia|].
           apply List.Forall_cons; [lia|exact Hall].
      * destruct IH as [(t' & Hb & Hall)|(e & Hle & Hlook & Hfree & Hlt & Hall)].
        -- injection Hb as <- <-. left. exists t. split; [reflexivity|].
           apply List.Forall_cons; [lia|exact Hall].
        -- right. exists e. split; [lia|]. split.
           { replace (i - i0)%nat with (S (i - S i0)) by lia. exact Hlook. }
           split; [exact Hfree|].
           pose proof (Hlt _ _ eq_refl) as Hnewer.
           split; [intros j' t'' [= _ <-]; lia|].
           apply List.Forall_cons; [lia|exact Hall].
      * destruct IH as [(t' & Hb & Hall)|(e & Hle & Hlook & Hfree & Hlt & Hall)].
        -- injection Hb as <- <-. right. exists a. rewrite Nat.sub_diag.
           split; [lia|]. split; [reflexivity|]. split; [exact Ha|].
           split; [discriminate|].
           apply List.Forall_cons; [lia|exact Hall].
        -- right. exists e. split; [lia|]. split.
           { replace (i - i0)%nat with (S (i - S i0)) by lia. exact Hlook. }
           split; [exact Hfree|].
           pose proof (Hlt _ _ eq_refl) as Hnewer.
           split; [discriminate|].
           apply List.Forall_cons; [lia|exact Hall].
Qed.

Lemma find_lru_free_Some (es : list PoolEntry) (i : nat) :
  find_lru_free es 0 None = Some i ->
  exists e, es !! i = Some e /\ in_use e = false
            /\ Forall (fun e' => in_use e' = false ->
                         last_used e <= last_used e') es.
Proof.
  intros Hfind. pose proof (find_lru_free_spec es 0 None) as Hspec.
  rewrite Hfind in Hspec.
  destruct Hspec as [(t & Hb & _)|(e & _ & Hlook & Hfree & _ & Hall)];
    [discriminate|].
  rewrite Nat.sub_0_r in Hlook. eauto.
Qed.

Lemma find_lru_free_None (es : list PoolEntry) :
  find_lru_free es 0 None = None <-> all_in_use es.
Proof.
  pose proof (find_lru_free_spec es 0 None) as Hspec. split.
  - intros Hfind. rewrite Hfind in Hspec. tauto.
  - intros Hall. destruct (find_lru_free es 0 None) as [i|]; [|reflexivity].
    destruct Hspec as [(t & Hb & _)|(e & _ & Hlook & Hfree & _)];
      [discriminate|].
    unfold all_in_use in Hall. rewrite Forall_forall in Hall.
    apply list_elem_of_lookup_2 in Hlook. apply Hall in Hlook. congruence.
Qed.

(** *** What [FindOrCreateContext] does to the entries *)

(** The three ways a slot is found: a free entry with the key is taken as
    it is; else, below capacity, a fresh entry is appended; else the least
    recently used free entry is given the new key. *)
Lemma find_or_create_cases (key : uint256) (max : nat) (es es' : list PoolEntry)
      (i : nat) (reinit : bool) :
  find_or_create key max es = Some (i, es', reinit) ->
  (exists e, es !! i = Some e /\ in_use e = false /\ key_hash e = key
             /\ es' = alter take_entry i es /\ reinit = false)
  \/ (~ has_free_with_key key es /\ (length es < max)%nat
      /\ i = length es /\ es' = es ++ [mkEntry key 0 true] /\ reinit = false)
  \/ (~ has_free_with_key key es /\ (max <= length es)%nat
      /\ exists e, es !! i = Some e /\ in_use e = false
                   /\ Forall (fun e' => in_use e' = false ->
                                last_used e <= last_used e') es
                   /\ es' = alter (rekey_entry key) i es /\ reinit = true).
Proof.
  unfold find_or_create.
  destruct (find_free_with_key key es 0) as [j|] eqn:Hfree.
  - intros [= <- <- <-]. left.
    destruct (find_free_with_key_Some _ _ _ _ Hfree) as (e & _ & Hlook & ? & ?).
    rewrite Nat.sub_0_r in Hlook. eauto 6.
  - apply find_free_with_key_None in Hfree.
    destruct (Nat.ltb_spec (length es) max) as [Hroom|Hfull].
    + intros [= <- <- <-]. right. left. auto.
    + destruct (find_lru_free es 0 None) as [j|] eqn:Hlru; [|discriminate].
      intros [= <- <- <-]. right. right.
      destruct (find_lru_free_Some _ _ Hlru) as (e & ? & ? & ?). eauto 9.
Qed.

(** The slot handed out exists, is marked in use and is initialised for the
    requested key; the pool never grows beyond its capacity and never
    shrinks. *)
Lemma find_or_create_slot (key : uint256) (max : nat) (es es' : list PoolEntry)
      (i : nat) (reinit : bool) :
  find_or_create key max es = Some (i, es', reinit) ->
  (exists e, es' !! i = Some e /\ in_use e = true /\ key_hash e = key)
  /\ (length es <= length es')%nat
  /\ ((length es <= max)%nat -> (length es' <= max)%nat).
Proof.
  intros Hfind.
  destruct (find_or_create_cases _ _ _ _ _ _ Hfind)
    as [(e & Hlook & Hfree & Hkey & -> & _)
       |[(_ & Hroom & -> & -> & _)
        |(_ & Hfull & e & Hlook & Hfree & _ & -> & _)]].
  - rewrite list_lookup_alter_eq, Hlook, length_alter. cbn.
    split; [eexists; split; [reflexivity|auto]|]. lia.
  - rewrite length_app. cbn [length].
    split; [|lia]. eexists. split; [apply list_lookup_middle; reflexivity|].
    auto.
  - rewrite list_lookup_alter_eq, Hlook, length_alter. cbn.
    split; [eexists; split; [reflexivity|auto]|]. lia.
Qed.

(** An entry that is checked out is never handed out again, and
    [FindOrCreateContext] changes no entry but the one it hands out. *)
Theorem find_or_create_leaves_the_others (key : uint256) (max : nat)
        (es es' : list PoolEntry) (i : nat) (reinit : bool) :
  find_or_create key max es = Some (i, es', reinit) ->
  (forall j e, es !! j = Some e -> in_use e = true ->
               j <> i /\ es' !! j = Some e)
  /\ (forall j, j <> i -> (j < length es)%nat -> es' !! j = es !! j).
Proof.
  intros Hfind.
  assert (Hframe : forall j, j <> i -> (j < length es)%nat ->
                             es' !! j = es !! j).
  { intros j Hne Hlt.
    destruct (find_or_create_cases _ _ _ _ _ _ Hfind)
      as [(e & _ & _ & _ & -> & _)
         |[(_ & _ & _ & -> & _)|(_ & _ & e & _ & _ & _ & -> & _)]].
    - apply list_lookup_alter_ne. congruence.
    - apply lookup_app_l. exact Hlt.
    - apply list_lookup_alter_ne. congruence. }
  split; [|exact Hframe].
  intros j e Hlook Hbusy.
  assert (Hne : j <> i).
  { intros ->.
    destruct (find_or_create_cases _ _ _ _ _ _ Hfind)
      as [(e0 & Hl & Hf & _)
         |[(_ & _ & -> & _)|(_ & _ & e0 & Hl & Hf & _)]].
    - congruence.
    - apply lookup_lt_Some in Hlook. lia.
    - congruence. }
  split; [exact Hne|]. rewrite Hframe; [exact Hlook|exact Hne|].
  apply lookup_lt_Some in Hlook. exact Hlook.
Qed.

Lemma find_or_create_leaves_the_others_witness :
  (mkEntry 1 0 true :: alter take_entry 0%nat [mkEntry 7 3 false]) !! 0%nat
  = Some (mkEntry 1 0 true).
Proof.
  apply (proj1 (find_or_create_leaves_the_others 7 2
                  [mkEntry 1 0 true; mkEntry 7 3 false] _ 1%nat false eq_refl)
           0%nat (mkEntry 1 0 true)); reflexivity.
Defined.

(** [FindOrCreateContext] finds no slot ([SIZE_MAX]) exactly when the pool
    is at capacity and every entry is checked out. *)
Theorem FindOrCreateContext_exhausted (key : uint256) (p : Pool) :
  FindOrCreateContext key p = None
  <-> (m_max_contexts p <= length (m_pool p))%nat /\ all_in_use (m_pool p).
Proof.
  unfold FindOrCreateContext, find_or_create.
  set (es := m_pool p). set (max := m_max_contexts p).
  destruct (find_free_with_key key es 0) as [j|] eqn:Hfree.
  - split; [discriminate|]. intros [_ Hall].
    destruct (find_free_with_key_Some _ _ _ _ Hfree) as (e & _ & Hlook & Hf & _).
    unfold all_in_use in Hall. rewrite Forall_forall in Hall.
    apply list_elem_of_lookup_2 in Hlook. apply Hall in Hlook. congruence.
  - destruct (Nat.ltb_spec (length es) max) as [Hroom|Hfull].
    + split; [discriminate|]. intros [Hcap _]. lia.
    + destruct (find_lru_free es 0 None) as [j|] eqn:Hlru.
      * split; [discriminate|]. intros [_ Hall].
        apply find_lru_free_None in Hall. congruence.
      * apply find_lru_free_None in Hlru. tauto.
Qed.

Lemma FindOrCreateContext_exhausted_witness :
  FindOrCreateContext 7 exhausted_pool = None.
Proof.
  apply FindOrCreateContext_exhausted. split; [cbn; lia|].
  repeat apply List.Forall_cons; try apply List.Forall_nil; reflexivity.
Defined.

(** A free context already initialised for the key is reused as it is: the
    pool keeps its size, no entry changes its key, and no key
    reinitialisation is counted. In particular a context that is returned
    and asked for again under the same key is not reinitialised. *)
Theorem FindOrCreateContext_reuses_key (key : uint256) (p : Pool) :
  has_free_with_key key (m_pool p) ->
  exists i p',
    FindOrCreateContext key p = Some (i, p')
    /\ key_hash <$> m_pool p' = key_hash <$> m_pool p
    /\ m_key_reinitializations p' = m_key_reinitializations p.
Proof.
  intros Hhas. unfold FindOrCreateContext.
  destruct (find_or_create key (m_max_contexts p) (m_pool p))
    as [[[i es'] reinit]|] eqn:Hfind.
  - destruct (find_or_create_cases _ _ _ _ _ _ Hfind)
      as [(e & Hlook & _ & _ & -> & ->)
         |[(Hno & _)|(Hno & _)]]; [|contradiction..].
    eexists _, _. split; [reflexivity|]. split; [|reflexivity].
    cbn [m_pool set_m_pool].
    apply list_eq. intros j. rewrite !list_lookup_fmap.
    destruct (decide (i = j)) as [<-|Hne].
    + rewrite list_lookup_alter_eq, Hlook. reflexivity.
    + rewrite list_lookup_alter_ne by exact Hne. reflexivity.
  - exfalso. unfold find_or_create in Hfind.
    destruct (find_free_with_key key (m_pool p) 0) eqn:Hfree; [discriminate|].
    apply find_free_with_key_None in Hfree. contradiction.
Qed.

Lemma has_free_after_Return (i : nat) (now : Z) (p : Pool) (e : PoolEntry) :
  m_pool p !! i = Some e ->
  has_free_with_key (key_hash e) (m_pool (Return (Some i) now p)).
Proof.
  intros Hlook. unfold has_free_with_key, Return. cbn [m_pool set_m_pool].
  apply Exists_exists. exists (release_entry now e). split; [|auto].
  apply list_elem_of_lookup. exists i.
  rewrite list_lookup_alter_eq, Hlook. reflexivity.
Qed.

Lemma FindOrCreateContext_reuses_key_witness :
  exists i p',
    FindOrCreateContext 2 (Return (Some 1%nat) 9 exhausted_pool) = Some (i, p')
    /\ key_hash <$> m_pool p'
       = key_hash <$> m_pool (Return (Some 1%nat) 9 exhausted_pool)
    /\ m_key_reinitializations p'
       = m_key_reinitializations (Return (Some 1%nat) 9 exhausted_pool).
Proof.
  apply FindOrCreateContext_reuses_key.
  apply (has_free_after_Return 1 9 exhausted_pool (mkEntry 2 5 true)).
  reflexivity.
Defined.

(** With the pool at capacity and no free entry for the key, the entry
    that is given the new key is a free one used no later than any other
    free entry, and the reinitialisation is counted. *)
Theorem FindOrCreateContext_evicts_least_recently_used (key : uint256)
        (p p' : Pool) (i : nat) :
  (m_max_contexts p <= length (m_pool p))%nat ->
  ~ has_free_with_key key (m_pool p) ->
  FindOrCreateContext key p = Some (i, p') ->
  exists e,
    m_pool p !! i = Some e /\ in_use e = false
    /\ (forall e', e' ∈ m_pool p -> in_use e' = false ->
                   last_used e <= last_used e')
    /\ m_pool p' !! i = Some (mkEntry key (last_used e) true)
    /\ m_key_reinitializations p' = S (m_key_reinitializations p).
Proof.
  intros Hfull Hno. unfold FindOrCreateContext.
  destruct (find_or_create key (m_max_contexts p) (m_pool p))
    as [[[j es'] reinit]|] eqn:Hfind; [|discriminate].
  intros [= <- <-].
  destruct (find_or_create_cases _ _ _ _ _ _ Hfind)
    as [(e & Hlook & Hfree & Hkey & _)
       |[(_ & Hroom & _)|(_ & _ & e & Hlook & Hfree & Hmin & -> & ->)]].
  - exfalso. apply Hno. apply Exists_exists. exists e.
    split; [eapply list_elem_of_lookup_2; eauto|auto].
  - lia.
  - exists e. split; [exact Hlook|]. split; [exact Hfree|].
    split; [rewrite Forall_forall in Hmin; exact Hmin|].
    cbn [m_pool set_m_pool count_reinitialization m_key_reinitializations].
    rewrite list_lookup_alter_eq, Hlook. split; reflexivity.
Qed.

Lemma FindOrCreateContext_evicts_least_recently_used_witness :
  exists e,
    m_pool (Return (Some 1%nat) 9 exhausted_pool) !! 1%nat = Some e
    /\ in_use e = false
    /\ (forall e', e' ∈ m_pool (Return (Some 1%nat) 9 exhausted_pool) ->
                   in_use e' = false -> last_used e <= last_used e')
    /\ m_pool (count_reinitialization
                 (set_m_pool [mkEntry 1 0 true; mkEntry 7 9 true]
                             (Return (Some 1%nat) 9 exhausted_pool)))
         !! 1%nat
       = Some (mkEntry 7 (last_used e) true)
    /\ m_key_reinitializations
         (count_reinitialization
            (set_m_pool [mkEntry 1 0 true; mkEntry 7 9 true]
                        (Return (Some 1%nat) 9 exhausted_pool)))
       = S (m_key_reinitializations (Return (Some 1%nat) 9 exhausted_pool)).
Proof.
  apply (FindOrCreateContext_evicts_least_recently_used 7
           (Return (Some 1%nat) 9 exhausted_pool)).
  - cbn. lia.
  - intros Hhas. apply Exists_exists in Hhas as (e & Hin & _ & Hkey).
    cbn in Hin. rewrite !elem_of_cons in Hin.
    destruct Hin as [->|[->|Hin]]; [discriminate..|].
    apply not_elem_of_nil in Hin. exact Hin.
  - reflexivity.
Defined.

(** *** Capacity *)

Lemma FindOrCreateContext_within_capacity (key : uint256) (p p' : Pool)
      (i : nat) :
  within_capacity p -> FindOrCreateContext key p = Some (i, p') ->
  within_capacity p' /\ m_max_contexts p' = m_max_contexts p.
Proof.
  unfold within_capacity, FindOrCreateContext. intros Hcap.
  destruct (find_or_create key (m_max_contexts p) (m_pool p))
    as [[[j es'] reinit]|] eqn:Hfind; [|discriminate].
  intros [= <- <-].
  destruct (find_or_create_slot _ _ _ _ _ _ Hfind) as (_ & _ & Hle).
  destruct reinit; cbn; auto.
Qed.

Lemma apply_op_within_capacity (op : PoolOp) (p : Pool) :
  within_capacity p ->
  within_capacity (apply_op op p)
  /\ m_max_contexts (apply_op op p) = m_max_contexts p.
Proof.
  intros Hcap. destruct op as [i now|key|prio|prio]; cbn [apply_op].
  - unfold within_capacity, Return. cbn. rewrite length_alter. auto.
  - destruct (FindOrCreateContext key p) as [[i p']|] eqn:Hfind; [|auto].
    eapply FindOrCreateContext_within_capacity; eauto.
  - split; [exact Hcap|reflexivity].
  - split; [exact Hcap|reflexivity].
Qed.

Lemma interfere_within_capacity (ev : WaitEvent) (p : Pool) :
  within_capacity p ->
  within_capacity (interfere ev p)
  /\ m_max_contexts (interfere ev p) = m_max_contexts p.
Proof.
  unfold interfere. generalize (interference ev) as ops. intros ops.
  revert p. induction ops as [|op ops IH]; intros p Hcap; cbn [fold_left];
    [auto|].
  destruct (apply_op_within_capacity op p Hcap) as [Hcap' Hmax'].
  destruct (IH _ Hcap') as [Hcap'' Hmax'']. split; [exact Hcap''|congruence].
Qed.

Lemma acquire_loop_within_capacity (key : uint256)
      (prio : AcquisitionPriority) (constructs : bool)
      (evs : list WaitEvent) :
  forall p : Pool,
    within_capacity p ->
    within_capacity (pool_after (acquire_loop key prio constructs evs p))
    /\ m_max_contexts (pool_after (acquire_loop key prio constructs evs p))
       = m_max_contexts p.
Proof.
  induction evs as [|ev rest IH]; intros p Hcap; cbn [acquire_loop];
    pose proof (PoolFacts.acquire_step_cases key prio constructs p) as Hp;
    destruct (acquire_step key prio constructs p) as [i p'| |w];
    try (destruct Hp as (_ & Hfind & _);
         eapply FindOrCreateContext_within_capacity in Hfind as [? ?];
         eauto; fail);
    try (cbn; auto; fail);
    destruct Hp as [[[Hes Hmax] _] _];
    assert (Hw : within_capacity w)
      by (unfold within_capacity in *; rewrite Hes, Hmax; exact Hcap).
  - destruct (wait _ None); cbn; unfold within_capacity in *; auto.
  - destruct (interfere_within_capacity ev w Hw) as [Hcap' Hmax'].
    destruct (wait _ (Some ev)) as [[|]|];
      [|cbn; split; [exact Hcap'|congruence]..].
    destruct (IH (interfere ev w) Hcap') as [Hc Hm].
    split; [exact Hc|congruence].
Qed.

(** The pool is bounded: a fresh pool holds no context and has capacity
    [MAX_CONTEXTS]; and whatever the priority, the key, the fate of the
    context construction and the other threads' operations during the
    waits, an [Acquire] on a pool within its capacity leaves it within the
    same capacity, so [total_contexts] never exceeds the maximum. *)
Theorem Acquire_keeps_capacity (key : uint256) (prio : AcquisitionPriority)
        (constructs : bool) (evs : list WaitEvent) (p : Pool) :
  within_capacity new_Pool
  /\ m_max_contexts new_Pool = MAX_CONTEXTS
  /\ (within_capacity p ->
      (total_contexts
         (GetStats (pool_after (Acquire key prio constructs evs p)))
       <= m_max_contexts p)%nat
      /\ m_max_contexts (pool_after (Acquire key prio constructs evs p))
         = m_max_contexts p).
Proof.
  split; [unfold within_capacity; cbn; lia|]. split; [reflexivity|].
  intros Hcap. unfold Acquire.
  destruct (acquire_loop_within_capacity key prio constructs evs
              (add_waiting prio S p) Hcap) as [Hc Hm].
  cbn [m_max_contexts add_waiting] in Hm.
  split; [|exact Hm]. cbn [GetStats total_contexts].
  unfold within_capacity in Hc. rewrite Hm in Hc. exact Hc.
Qed.

Lemma Acquire_keeps_capacity_witness :
  Nat.le
    (total_contexts
       (GetStats (pool_after
                    (Acquire 7 HIGH true [late_release] exhausted_pool))))
    2.
Proof.
  apply (proj2 (proj2 (Acquire_keeps_capacity 7 HIGH true [late_release]
                         exhausted_pool))).
  unfold within_capacity. cbn. lia.
Defined.

(** *** The guard *)

(** An [Acquire] that completes with a guard hands out a slot that exists
    in the pool, is marked in use and holds a context initialised for the
    requested key. *)
Theorem Acquire_guard_is_valid (key : uint256) (prio : AcquisitionPriority)
        (constructs : bool) (evs : list WaitEvent) (p : Pool)
        (g : ContextGuard) :
  outcome (Acquire key prio constructs evs p) = Completed (Some g) ->
  exists i e,
    m_index g = Some i
    /\ m_pool (pool_after (Acquire key prio constructs evs p)) !! i = Some e
    /\ in_use e = true /\ key_hash e = key.
Proof.
  unfold Acquire. generalize (add_waiting prio S p) as q. revert g.
  induction evs as [|ev rest IH]; intros g q; cbn [acquire_loop];
    pose proof (PoolFacts.acquire_step_cases key prio constructs q) as Hq;
    destruct (acquire_step key prio constructs q) as [i q'| |w];
    try discriminate.
  - destruct Hq as (_ & Hfind & _).
    cbn. intros [= <-]. unfold FindOrCreateContext in Hfind.
    destruct (find_or_create key (m_max_contexts q) (m_pool q))
      as [[[j es'] reinit]|] eqn:Hfc; [|discriminate].
    injection Hfind as <- <-.
    destruct (find_or_create_slot _ _ _ _ _ _ Hfc) as ((e & He & ? & ?) & _).
    exists j, e. split; [reflexivity|]. split; [|auto].
    destruct reinit; exact He.
  - destruct (wait _ None); discriminate.
  - destruct Hq as (_ & Hfind & _).
    cbn. intros [= <-]. unfold FindOrCreateContext in Hfind.
    destruct (find_or_create key (m_max_contexts q) (m_pool q))
      as [[[j es'] reinit]|] eqn:Hfc; [|discriminate].
    injection Hfind as <- <-.
    destruct (find_or_create_slot _ _ _ _ _ _ Hfc) as ((e & He & ? & ?) & _).
    exists j, e. split; [reflexivity|]. split; [|auto].
    destruct reinit; exact He.
  - destruct (wait _ (Some ev)) as [[|]|]; [apply IH|discriminate..].
Qed.

Lemma Acquire_guard_is_valid_witness :
  exists i e,
    m_index (mkGuard (Some 0%nat)) = Some i
    /\ m_pool (pool_after
                 (Acquire 7 CONSENSUS_CRITICAL true [late_release]
                          exhausted_pool))
         !! i = Some e
    /\ in_use e = true /\ key_hash e = 7.
Proof.
  apply (Acquire_guard_is_valid 7 CONSENSUS_CRITICAL true [late_release]
           exhausted_pool (mkGuard (Some 0%nat))).
  reflexivity.
Defined.

Lemma count_in_use_cons (a : PoolEntry) (es : list PoolEntry) :
  count_in_use (a :: es)
  = ((if in_use a then 1 else 0) + count_in_use es)%nat.
Proof.
  unfold count_in_use. rewrite filter_cons.
  destruct (decide (in_use a = true)) as [Ha|Ha].
  - rewrite Ha. reflexivity.
  - destruct (in_use a); [congruence|reflexivity].
Qed.

Lemma count_in_use_alter (f : PoolEntry -> PoolEntry) (es : list PoolEntry) :
  forall (i : nat) (e : PoolEntry),
    es !! i = Some e ->
    (count_in_use (alter f i es) + (if in_use e then 1 else 0)
     = count_in_use es + (if in_use (f e) then 1 else 0))%nat.
Proof.
  induction es as [|a es IH]; intros i e Hlook; [discriminate|].
  destruct i as [|i].
  - injection Hlook as <-. cbn [alter list_alter].
    rewrite !count_in_use_cons. lia.
  - cbn [alter list_alter]. rewrite !count_in_use_cons.
    specialize (IH i e Hlook). cbn [alter] in IH. lia.
Qed.

Lemma count_in_use_snoc (es : list PoolEntry) (a : PoolEntry) :
  count_in_use (es ++ [a])
  = (count_in_use es + (if in_use a then 1 else 0))%nat.
Proof.
  induction es as [|b es IH]; cbn [app].
  - rewrite count_in_use_cons. unfold count_in_use. cbn. lia.
  - rewrite !count_in_use_cons, IH. lia.
Qed.

Lemma find_or_create_count (key : uint256) (max : nat)
      (es es' : list PoolEntry) (i : nat) (reinit : bool) :
  find_or_create key max es = Some (i, es', reinit) ->
  count_in_use es' = S (count_in_use es).
Proof.
  intros Hfind.
  destruct (find_or_create_cases _ _ _ _ _ _ Hfind)
    as [(e & Hlook & Hfree & _ & -> & _)
       |[(_ & _ & _ & -> & _)|(_ & _ & e & Hlook & Hfree & _ & -> & _)]].
  - pose proof (count_in_use_alter take_entry es i e Hlook) as Hc.
    rewrite Hfree in Hc. cbn in Hc. lia.
  - rewrite count_in_use_snoc. cbn. lia.
  - pose proof (count_in_use_alter (rekey_entry key) es i e Hlook) as Hc.
    rewrite Hfree in Hc. cbn in Hc. lia.
Qed.

(** The life of a guard. Taking a slot raises [active_contexts] by one.
    After a move, the destructor of the moved-from guard releases nothing;
    the destructor of the guard that holds the slot brings
    [active_contexts] back, keeps [total_contexts], leaves the entry free
    under its key with [last_used] updated, and touches no other entry. *)
Theorem guard_lifecycle (key : uint256) (p p' : Pool) (i : nat)
        (now now' : Z) :
  FindOrCreateContext key p = Some (i, p') ->
  let moved := ContextGuard_move (mkGuard (Some i)) in
  let released := ContextGuard_destroy (fst moved) now p' in
  active_contexts (GetStats p') = S (active_contexts (GetStats p))
  /\ ContextGuard_destroy (snd moved) now' p' = p'
  /\ ContextGuard_destroy (snd moved) now' released = released
  /\ active_contexts (GetStats released) = active_contexts (GetStats p)
  /\ total_contexts (GetStats released) = total_contexts (GetStats p')
  /\ m_pool released !! i = Some (mkEntry key now false)
  /\ forall j, j <> i -> m_pool released !! j = m_pool p' !! j.
Proof.
  intros Hfind moved released.
  unfold FindOrCreateContext in Hfind.
  destruct (find_or_create key (m_max_contexts p) (m_pool p))
    as [[[j es'] reinit]|] eqn:Hfc; [|discriminate].
  injection Hfind as <- <-.
  pose proof (find_or_create_count _ _ _ _ _ _ Hfc) as Hcount.
  destruct (find_or_create_slot _ _ _ _ _ _ Hfc) as ((e & He & Hbusy & Hkey) & _).
  assert (Hes : m_pool (if reinit
                        then count_reinitialization (set_m_pool es' p)
                        else set_m_pool es' p) = es')
    by (destruct reinit; reflexivity).
  subst moved released.
  cbn [ContextGuard_move fst snd ContextGuard_destroy m_index Return
       GetStats active_contexts total_contexts].
  rewrite !Hes. cbn [m_pool set_m_pool].
  split; [exact Hcount|]. split; [reflexivity|]. split; [reflexivity|].
  split; [|split; [|split]].
  - pose proof (count_in_use_alter (release_entry now) es' j e He) as Hc.
    rewrite Hbusy in Hc. cbn in Hc. lia.
  - apply length_alter.
  - rewrite list_lookup_alter_eq, He. cbn. unfold release_entry.
    rewrite Hkey. reflexivity.
  - intros k Hne. apply list_lookup_alter_ne. congruence.
Qed.

Lemma guard_lifecycle_witness :
  active_contexts (GetStats (set_m_pool [mkEntry 7 0 true] new_Pool))
  = S (active_contexts (GetStats new_Pool)).
Proof.
  apply (guard_lifecycle 7 new_Pool (set_m_pool [mkEntry 7 0 true] new_Pool)
           0%nat 10 20 eq_refl).
Defined.

End PoolMore.

Module PowMore.
Import Consensus Pow Scenarios.

Lemma clamp_timespan_monotone (T a b : Z) :
  0 < T -> a <= b -> clamp_timespan T a <= clamp_timespan T b.
Proof.
  intros HT Hab. unfold clamp_timespan.
  assert (T / 4 <= T) by (apply Z.div_le_upper_bound; lia).
  destruct (Z.ltb_spec a (T / 4)), (Z.ltb_spec b (T / 4)); try lia;
    destruct (Z.gtb_spec a (T * 4)), (Z.gtb_spec b (T * 4)); lia.
Qed.

Lemma clamp_timespan_short (T a : Z) :
  0 < T -> a <= T / 4 -> clamp_timespan T a = clamp_timespan T (T / 4).
Proof.
  intros HT Ha. unfold clamp_timespan.
  assert (T / 4 <= T) by (apply Z.div_le_upper_bound; lia).
  destruct (Z.ltb_spec a (T / 4)), (Z.ltb_spec (T / 4) (T / 4)); try lia;
    destruct (Z.gtb_spec a (T * 4)), (Z.gtb_spec (T / 4) (T * 4)); lia.
Qed.

Lemma clamp_timespan_long (T a : Z) :
  0 < T -> T * 4 <= a -> clamp_timespan T a = clamp_timespan T (T * 4).
Proof.
  intros HT Ha. unfold clamp_timespan.
  assert (T / 4 <= T) by (apply Z.div_le_upper_bound; lia).
  destruct (Z.ltb_spec a (T / 4)), (Z.ltb_spec (T * 4) (T / 4)); try lia;
    destruct (Z.gtb_spec a (T * 4)), (Z.gtb_spec (T * 4) (T * 4)); lia.
Qed.

(** With retargeting on: an interval that took exactly the target timespan
    leaves a target within the limit unchanged; a longer interval never
    gives a smaller target than a shorter one; and intervals shorter than
    a quarter of the timespan, or longer than four times it, count as
    exactly a quarter, or four times. Targets are those the [nBits]
    stand for. *)
Theorem CalculateNextWorkRequired_follows_elapsed_time
        (pindexLast : BlockIndex) (params : Params) :
  fPowNoRetargeting params = false ->
  0 < nPowTargetTimespan params ->
  in_uint32 (nBits pindexLast) ->
  in_uint256 (GetActivePowLimit params (nHeight pindexLast + 1)) ->
  let T := nPowTargetTimespan params in
  let next first :=
    target_of (CalculateNextWorkRequired pindexLast first params) in
  (target_of (nBits pindexLast)
   <= GetActivePowLimit params (nHeight pindexLast + 1) ->
   next (nTime pindexLast - T) = target_of (nBits pindexLast))
  /\ (forall first first', first' <= first -> next first <= next first')
  /\ (forall first, nTime pindexLast - first <= T / 4 ->
        next first = next (nTime pindexLast - T / 4))
  /\ (forall first, T * 4 <= nTime pindexLast - first ->
        next first = next (nTime pindexLast - T * 4)).
Proof.
  intros Hon HT [Hbits _] Hlimit T next.
  pose proof (PowFacts.target_of_range _ Hbits) as [Hold _].
  assert (Hq : T / 4 <= T) by (apply Z.div_le_upper_bound; lia).
  assert (Hnext : forall first,
            0 <= Z.min (GetActivePowLimit params (nHeight pindexLast + 1))
                       (target_of (nBits pindexLast)
                        * clamp_timespan T (nTime pindexLast - first) / T)
            /\ next first
               = round_compact
                   (Z.min (GetActivePowLimit params (nHeight pindexLast + 1))
                          (target_of (nBits pindexLast)
                           * clamp_timespan T (nTime pindexLast - first)
                           / T))).
  { intros first.
    exact (PowFacts.next_target_spec pindexLast first params
             Hon HT Hbits Hlimit). }
  split; [|split; [|split]].
  - intros Hroom. destruct (Hnext (nTime pindexLast - T)) as [_ ->].
    replace (nTime pindexLast - (nTime pindexLast - T)) with T by lia.
    assert (Hclamp : clamp_timespan T T = T).
    { unfold clamp_timespan.
      destruct (Z.ltb_spec T (T / 4)); [lia|].
      destruct (Z.gtb_spec T (T * 4)); lia. }
    rewrite Hclamp, Z.div_mul by lia. rewrite Z.min_r by exact Hroom.
    apply PowFacts.round_compact_target_of, Hbits.
  - intros first first' Hle.
    destruct (Hnext first) as [Hnonneg ->]. destruct (Hnext first') as [_ ->].
    apply PowFacts.round_compact_mono. split; [exact Hnonneg|].
    apply Z.min_le_compat_l, Z.div_le_mono; [lia|].
    apply Z.mul_le_mono_nonneg_l; [lia|].
    apply clamp_timespan_monotone; lia.
  - intros first Hshort. subst next. cbv beta.
    unfold CalculateNextWorkRequired. rewrite Hon. fold T.
    replace (nTime pindexLast - (nTime pindexLast - T / 4)) with (T / 4)
      by lia.
    rewrite (clamp_timespan_short T (nTime pindexLast - first)) by lia.
    reflexivity.
  - intros first Hlong. subst next. cbv beta.
    unfold CalculateNextWorkRequired. rewrite Hon. fold T.
    replace (nTime pindexLast - (nTime pindexLast - T * 4)) with (T * 4)
      by lia.
    rewrite (clamp_timespan_long T (nTime pindexLast - first)) by lia.
    reflexivity.
Qed.

Lemma CalculateNextWorkRequired_follows_elapsed_time_witness :
  target_of (CalculateNextWorkRequired fast_block
               (nTime fast_block - 1209600) emergency_params)
  = target_of (nBits fast_block).
Proof.
  apply (CalculateNextWorkRequired_follows_elapsed_time fast_block
           emergency_params eq_refl);
    [reflexivity|split; discriminate|split; [discriminate|reflexivity]
    |discriminate].
Defined.

End PowMore.

Module TxVerifyMore.
Import TxVerify Scenarios.

Section WithCap.
Variable MAX_MONEY : CAmount.

Lemma check_inputs_agree (view view' : CCoinsView) (spend_height : Z)
      (ins : list COutPoint) :
  (forall o, o ∈ ins -> view !! o = view' !! o) ->
  forall sum_in,
    check_inputs MAX_MONEY view spend_height ins sum_in
    = check_inputs MAX_MONEY view' spend_height ins sum_in.
Proof.
  induction ins as [|o rest IH]; intros Hsame sum_in; cbn [check_inputs];
    [reflexivity|].
  rewrite <- (Hsame o) by apply list_elem_of_here.
  destruct (view !! o) as [coin|]; [|reflexivity].
  destruct (premature spend_height coin); [reflexivity|].
  destruct (negb (MoneyRange MAX_MONEY (value coin))
            || negb (MoneyRange MAX_MONEY (sum_in + value coin)));
    [reflexivity|].
  apply IH. intros o' Hin. apply Hsame. apply list_elem_of_further, Hin.
Qed.

Lemma check_inputs_inr_exist (view : CCoinsView) (spend_height : Z)
      (ins : list COutPoint) :
  forall sum_in total,
    check_inputs MAX_MONEY view spend_height ins sum_in = inr total ->
    all_exist view ins.
Proof.
  unfold all_exist.
  induction ins as [|o rest IH]; intros sum_in total; cbn [check_inputs];
    [intros _; apply List.Forall_nil|].
  destruct (view !! o) as [coin|] eqn:Hlook; [|discriminate].
  destruct (premature spend_height coin); [discriminate|].
  destruct (negb (MoneyRange MAX_MONEY (value coin))
            || negb (MoneyRange MAX_MONEY (sum_in + value coin)));
    [discriminate|].
  intros Hrest. apply List.Forall_cons; [rewrite Hlook; eauto|eauto].
Qed.

Lemma check_inputs_later (view : CCoinsView) (h h' : Z)
      (ins : list COutPoint) :
  h <= h' ->
  forall sum_in total,
    check_inputs MAX_MONEY view h ins sum_in = inr total ->
    check_inputs MAX_MONEY view h' ins sum_in = inr total.
Proof.
  intros Hle.
  induction ins as [|o rest IH]; intros sum_in total; cbn [check_inputs];
    [auto|].
  destruct (view !! o) as [coin|]; [|discriminate].
  destruct (premature h coin) eqn:Hpre; [discriminate|].
  assert (Hpre' : premature h' coin = false).
  { apply not_true_iff_false. intros Habs.
    apply TxVerifyFacts.premature_spec in Habs as [Hcb Hearly].
    assert (premature h coin = true)
      by (apply TxVerifyFacts.premature_spec; split; [exact Hcb|lia]).
    congruence. }
  rewrite Hpre'.
  destruct (negb (MoneyRange MAX_MONEY (value coin))
            || negb (MoneyRange MAX_MONEY (sum_in + value coin)));
    [discriminate|].
  apply IH.
Qed.

Lemma check_inputs_error (view : CCoinsView) (spend_height : Z)
      (ins : list COutPoint) :
  forall sum_in err,
    check_inputs MAX_MONEY view spend_height ins sum_in = inl err ->
    match err with
    | TX_MISSING_INPUTS => exists o, o ∈ ins /\ view !! o = None
    | TX_PREMATURE_SPEND =>
        exists o coin, o ∈ ins /\ view !! o = Some coin
                       /\ is_coinbase coin = true
                       /\ spend_height - height coin < COINBASE_MATURITY
    | TX_CONSENSUS _ => True
    end.
Proof.
  induction ins as [|o rest IH]; intros sum_in err; cbn [check_inputs];
    [discriminate|].
  destruct (view !! o) as [coin|] eqn:Hlook.
  2:{ intros [= <-]. exists o. split; [apply list_elem_of_here|exact Hlook]. }
  destruct (premature spend_height coin) eqn:Hpre.
  { intros [= <-]. apply TxVerifyFacts.premature_spec in Hpre as [? ?].
    exists o, coin. split; [apply list_elem_of_here|auto]. }
  destruct (negb (MoneyRange MAX_MONEY (value coin))
            || negb (MoneyRange MAX_MONEY (sum_in + value coin))).
  { intros [= <-]. exact I. }
  intros Hrest. specialize (IH _ _ Hrest).
  destruct err as [| |reason]; [| |exact I].
  - destruct IH as (o' & Hin & Hnone). exists o'.
    split; [apply list_elem_of_further, Hin|exact Hnone].
  - destruct IH as (o' & coin' & Hin & Hrest').
    exists o', coin'. split; [apply list_elem_of_further, Hin|exact Hrest'].
Qed.

(** The result depends on the view only through the prevouts of the
    transaction: adding a coin under another outpoint, or spending one,
    changes nothing; spending one of the transaction's own prevouts makes
    the check fail. *)
Theorem CheckTxInputs_looks_at_own_prevouts (tx : CTransaction)
        (view : CCoinsView) (spend_height : Z) :
  (forall view' : CCoinsView,
     (forall o, o ∈ vin tx -> view !! o = view' !! o) ->
     CheckTxInputs MAX_MONEY tx view spend_height
     = CheckTxInputs MAX_MONEY tx view' spend_height)
  /\ (forall o coin, o ∉ vin tx ->
        CheckTxInputs MAX_MONEY tx (<[o := coin]> view) spend_height
        = CheckTxInputs MAX_MONEY tx view spend_height
        /\ CheckTxInputs MAX_MONEY tx (delete o view) spend_height
           = CheckTxInputs MAX_MONEY tx view spend_height)
  /\ (forall o, o ∈ vin tx ->
        forall fee,
          CheckTxInputs MAX_MONEY tx (delete o view) spend_height <> inr fee).
Proof.
  assert (Hagree : forall view1 view2 : CCoinsView,
            (forall o, o ∈ vin tx -> view1 !! o = view2 !! o) ->
            CheckTxInputs MAX_MONEY tx view1 spend_height
            = CheckTxInputs MAX_MONEY tx view2 spend_height).
  { intros view1 view2 Hsame. unfold CheckTxInputs.
    rewrite (check_inputs_agree view1 view2 spend_height (vin tx) Hsame).
    reflexivity. }
  split; [apply Hagree|]. split.
  - intros o coin Hnot. split; apply Hagree; intros o' Hin.
    + apply lookup_insert_ne. intros ->. contradiction.
    + apply lookup_delete_ne. intros ->. contradiction.
  - intros o Hin fee. unfold CheckTxInputs.
    destruct (check_inputs MAX_MONEY (delete o view) spend_height (vin tx) 0)
      as [err|sum_in] eqn:Hrun; [discriminate|].
    apply check_inputs_inr_exist in Hrun. unfold all_exist in Hrun.
    rewrite Forall_forall in Hrun. specialize (Hrun o Hin).
    rewrite lookup_delete_eq in Hrun. destruct Hrun as [c Hc]. discriminate.
Qed.

(** A transaction accepted at some spend height is accepted, with the same
    fee, at every later one: maturity only improves with height. *)
Theorem CheckTxInputs_stays_valid (tx : CTransaction) (view : CCoinsView)
        (h h' : Z) (fee : CAmount) :
  h <= h' ->
  CheckTxInputs MAX_MONEY tx view h = inr fee ->
  CheckTxInputs MAX_MONEY tx view h' = inr fee.
Proof.
  intros Hle. unfold CheckTxInputs.
  destruct (check_inputs MAX_MONEY view h (vin tx) 0) as [err|sum_in] eqn:Hrun;
    [discriminate|].
  rewrite (check_inputs_later view h h' (vin tx) Hle 0 sum_in Hrun). auto.
Qed.

(** What the two input errors mean. Missing inputs are reported only when
    some prevout is absent from the view, and always when the view is
    empty and the transaction has an input; a premature spend only when
    some input is a coinbase less than 100 blocks deep, so never for a
    transaction without coinbase inputs. *)
Theorem CheckTxInputs_input_errors (tx : CTransaction) (view : CCoinsView)
        (spend_height : Z) :
  (CheckTxInputs MAX_MONEY tx view spend_height = inl TX_MISSING_INPUTS ->
   exists o, o ∈ vin tx /\ view !! o = None)
  /\ (vin tx <> [] ->
      CheckTxInputs MAX_MONEY tx ∅ spend_height = inl TX_MISSING_INPUTS)
  /\ (CheckTxInputs MAX_MONEY tx view spend_height = inl TX_PREMATURE_SPEND ->
      exists o coin, o ∈ vin tx /\ view !! o = Some coin
                     /\ is_coinbase coin = true
                     /\ spend_height - height coin < 100)
  /\ ((forall o coin, o ∈ vin tx -> view !! o = Some coin ->
                      is_coinbase coin = false) ->
      CheckTxInputs MAX_MONEY tx view spend_height <> inl TX_PREMATURE_SPEND).
Proof.
  assert (Hloop : forall err,
            CheckTxInputs MAX_MONEY tx view spend_height = inl err ->
            err = TX_MISSING_INPUTS \/ err = TX_PREMATURE_SPEND ->
            check_inputs MAX_MONEY view spend_height (vin tx) 0 = inl err).
  { intros err. unfold CheckTxInputs.
    destruct (check_inputs MAX_MONEY view spend_height (vin tx) 0)
      as [err'|sum_in]; [congruence|].
    destruct (sum_in <? GetValueOut tx);
      [intros [= <-] [?|?]; discriminate|].
    destruct (negb (MoneyRange MAX_MONEY (sum_in - GetValueOut tx)));
      [intros [= <-] [?|?]; discriminate|discriminate]. }
  assert (Hpremature :
            CheckTxInputs MAX_MONEY tx view spend_height
            = inl TX_PREMATURE_SPEND ->
            exists o coin, o ∈ vin tx /\ view !! o = Some coin
                           /\ is_coinbase coin = true
                           /\ spend_height - height coin < 100).
  { intros Herr. apply Hloop in Herr; [|auto].
    exact (check_inputs_error _ _ _ _ _ Herr). }
  split; [|split; [|split]].
  - intros Herr. apply Hloop in Herr; [|auto].
    exact (check_inputs_error _ _ _ _ _ Herr).
  - intros Hnonempty. unfold CheckTxInputs.
    destruct (vin tx) as [|o rest]; [congruence|].
    cbn [check_inputs]. rewrite lookup_empty. reflexivity.
  - exact Hpremature.
  - intros Hnone Herr.
    destruct (Hpremature Herr) as (o & coin & Hin & Hlook & Hcb & _).
    specialize (Hnone o coin Hin Hlook). congruence.
Qed.

End WithCap.

Lemma CheckTxInputs_looks_at_own_prevouts_witness :
  CheckTxInputs upstream_MAX_MONEY spend_coinbase
    (<[(9, 9) := coinbase_at_100]> coinbase_view) 200
  = CheckTxInputs upstream_MAX_MONEY spend_coinbase coinbase_view 200.
Proof.
  apply (proj2 (CheckTxInputs_looks_at_own_prevouts upstream_MAX_MONEY
                  spend_coinbase coinbase_view 200)).
  intros Hin. cbn in Hin. apply list_elem_of_singleton in Hin. discriminate.
Defined.

Lemma CheckTxInputs_stays_valid_witness :
  CheckTxInputs upstream_MAX_MONEY spend_coinbase coinbase_view 250 = inr 0.
Proof.
  apply (CheckTxInputs_stays_valid upstream_MAX_MONEY spend_coinbase
           coinbase_view 200 250); [lia|reflexivity].
Defined.

Lemma CheckTxInputs_input_errors_witness :
  CheckTxInputs upstream_MAX_MONEY spend_coinbase ∅ 200
  = inl TX_MISSING_INPUTS.
Proof.
  apply (CheckTxInputs_input_errors upstream_MAX_MONEY spend_coinbase
           coinbase_view 200).
  discriminate.
Defined.

End TxVerifyMore.
